(** * Task Tracker: the in-memory task store and its derived views

    A shallow embedding of [src/taskManager.js], [src/validation.js],
    [src/taskUtils.js] and the statistics route of [src/app.js], with the
    properties of the task lifecycle manager stated over it.

    Conventions of the embedding.

    - A JavaScript string is the list of its UTF-16 code units; [lit]
      turns an ASCII literal of the source into such a list.
    - A task is an object on a heap; the module variable [tasks] is an
      array of references to such objects.  A function that returns a
      task returns a reference, so aliasing between the store and its
      callers is visible.
    - [Date.now()], [new Date()] and [Math.random()] read the
      environment.  Each operation takes the values it reads as arguments,
      in the order in which it reads them.
    - A [throw new Error(msg)] is the result [Throw msg]; the state that
      accompanies it is the state at the point of the throw.
    - Calls to [logger] write to the console and to a log file and never
      touch [tasks]; they are left out. *)

From Stdlib Require Import ZArith NArith List String Ascii Bool Lia Sorted.
From Stdlib Require Import DecimalString DecimalZ.
From Stdlib Require Import PrimFloat FloatOps SpecFloat Uint63.
From stdpp Require Import base tactics option numbers list.

Set Default Proof Using "Type".
Open Scope Z_scope.

(** ** JavaScript strings *)

Definition code_unit := N.
Definition jsstring := list code_unit.

Definition lit (s : string) : jsstring :=
  map N_of_ascii (list_ascii_of_string s).

(** [WhiteSpace] and [LineTerminator] of ECMAScript, the code points
    that [String.prototype.trim] strips. *)
Definition is_ws (c : code_unit) : bool :=
  ((9 <=? c) && (c <=? 13) || (c =? 32) || (c =? 160) || (c =? 5760)
   || (8192 <=? c) && (c <=? 8202) || (c =? 8232) || (c =? 8233)
   || (c =? 8239) || (c =? 8287) || (c =? 12288) || (c =? 65279))%N.

Fixpoint trimStart (s : jsstring) : jsstring :=
  match s with
  | c :: r => if is_ws c then trimStart r else s
  | [] => []
  end.

Definition trimEnd (s : jsstring) : jsstring := rev (trimStart (rev s)).

Definition trim (s : jsstring) : jsstring := trimEnd (trimStart s).

(** [Array.prototype.join] on an array of strings. *)
Fixpoint join (sep : jsstring) (xs : list jsstring) : jsstring :=
  match xs with
  | [] => []
  | [x] => x
  | x :: r => x ++ sep ++ join sep r
  end.

(** [ToString] of an integral Number of magnitude below 10^21, as a
    template literal applies it: the decimal digits, with a minus sign
    for a negative number. *)
Definition number_to_string (z : Z) : jsstring :=
  lit (NilEmpty.string_of_int (Z.to_int z)).

(** ** JavaScript values

    The values a JSON request body can carry into the store.  An object
    or array of the body can be converted to a string ([convertible]),
    unless a property of its own hides [toString] with something that is
    not a function, as in [{"toString": 1}]: [valueOf] then answers the
    object itself, and the conversion throws a [TypeError]. *)

Inductive jsval :=
  | JUndefined
  | JNull
  | JBool (b : bool)
  | JNumber (x : float)
  | JString (s : jsstring)
  | JObject (convertible : bool).

(** [ToBoolean]: what [!v] negates. *)
Definition truthy (v : jsval) : bool :=
  match v with
  | JUndefined | JNull => false
  | JBool b => b
  | JNumber x => negb (PrimFloat.eqb x 0 || PrimFloat.is_nan x)
  | JString s => negb (bool_decide (s = []))
  | JObject _ => true
  end.

(** The message of the [TypeError] that Node raises when [ToString]
    meets an object that cannot be converted. *)
Definition cannot_convert_error : jsstring :=
  lit "Cannot convert object to primitive value".

(** [`${v}`]: a template literal applies [ToString] to [v].  [None]
    when the conversion gives a string, which every value but an
    object that is not convertible does; otherwise the message of the
    error thrown. *)
Definition template_throws (v : jsval) : option jsstring :=
  match v with
  | JObject false => Some cannot_convert_error
  | _ => None
  end.

(** [v === s] for a string [s]: strict equality holds for a string with
    the same code units and for nothing else. *)
Definition strict_eq (v : jsval) (s : jsstring) : bool :=
  match v with
  | JString s' => bool_decide (s' = s)
  | _ => false
  end.

(** [xs.includes(v)] for an array of strings. *)
Definition includes (xs : list jsstring) (v : jsval) : bool :=
  existsb (strict_eq v) xs.

(** ** Tasks, the heap and the store *)

Module Task.

Record t := mk {
  id : jsstring;
  title : jsstring;
  status : jsval;
  createdAt : Z;
  updatedAt : Z;
}.

End Task.

(** [createdAt] and [updatedAt] hold the instant (milliseconds since the
    epoch) that [new Date()] read; the source stores its
    [toISOString()] rendering, which determines the instant and is
    ordered like it for four-digit years. *)

#[global] Instance task_inhabited : Inhabited Task.t :=
  populate (Task.mk [] [] JUndefined 0 0).

Definition loc := nat.

Record world := World {
  heap : list Task.t;   (* every task object allocated so far *)
  tasks : list loc;     (* [let tasks = []] of taskManager.js *)
}.

Definition empty_world : world := World [] [].

(** Reading the object behind a reference. *)
Definition deref (w : world) (l : loc) : Task.t := heap w !!! l.

(** The store as its callers may observe it through reads: the task
    records in collection order. *)
Definition snapshot (w : world) : list Task.t := deref w <$> tasks w.

(** Every reference held by the store points into the heap, and no
    object is held twice. *)
Definition wf (w : world) : Prop :=
  Forall (λ l, (l < length (heap w))%nat) (tasks w) ∧ NoDup (tasks w).

Inductive result (A : Type) :=
  | Ok (a : A)
  | Throw (message : jsstring).
Arguments Ok {A} a.
Arguments Throw {A} message.


(** ** taskManager.js *)

Definition generateId (now : Z) (random : jsstring) : jsstring :=
  lit "task-" ++ number_to_string now ++ lit "-" ++ random.

(** What [createTask] reads from the environment: [Date.now()] and
    [Math.random().toString(36).substr(2, 9)] inside [generateId], then
    [new Date()] for [createdAt] and [new Date()] again for [updatedAt]. *)
Record create_env := CreateEnv {
  id_now : Z;
  id_random : jsstring;
  created_now : Z;
  updated_now : Z;
}.

Definition title_error : jsstring :=
  lit "Task title is required and must be a non-empty string".

Definition createTask (title : jsval) (e : create_env) (w : world)
  : result loc * world :=
  match title with
  | JString s =>
      if negb (truthy title) || bool_decide (trim s = []) then
        (Throw title_error, w)
      else
        let task := Task.mk (generateId (id_now e) (id_random e))
                            (trim s)
                            (JString (lit "pending"))
                            (created_now e)
                            (updated_now e) in
        let l := length (heap w) in
        (Ok l, World (heap w ++ [task]) (tasks w ++ [l]))
  | _ => (* [!title || typeof title !== 'string'] *)
      (Throw title_error, w)
  end.

(** [tasks.map(task => ({ ...task }))]: a fresh array of fresh objects. *)
Definition getTasks (w : world) : list loc * world :=
  let copies := snapshot w in
  (seq (length (heap w)) (length copies),
   World (heap w ++ copies) (tasks w)).

Definition has_id (w : world) (taskId : jsstring) (l : loc) : bool :=
  bool_decide (Task.id (deref w l) = taskId).

(** [tasks.find(t => t.id === taskId)], then [task || null]; [None] is
    [null]. *)
Definition getTaskById (taskId : jsstring) (w : world) : option loc :=
  find (has_id w taskId) (tasks w).

Definition validStatuses : list jsstring := [lit "pending"; lit "completed"].

Definition status_error : jsstring :=
  lit "Status must be one of: " ++ join (lit ", ") validStatuses.

Definition not_found_error (taskId : jsstring) : jsstring :=
  lit "Task with ID " ++ taskId ++ lit " not found".

(** The log line of the first branch interpolates the status as the
    caller passed it.  Those of the other branches interpolate the id,
    the status that passed the check and the status the task had, which
    are strings as the store writes them. *)
Definition updateTaskStatus (taskId : jsstring) (status : jsval) (now : Z)
    (w : world) : result loc * world :=
  if negb (includes validStatuses status) then
    (* [logger.error('TaskManager', `Invalid status: ${status}`)] comes
       before [throw new Error(`Status must be one of: ...`)] *)
    match template_throws status with
    | Some type_error => (Throw type_error, w)
    | None => (Throw status_error, w)
    end
  else
    match find (has_id w taskId) (tasks w) with
    | None => (Throw (not_found_error taskId), w)
    | Some l =>
        let task := deref w l in
        let task' := Task.mk (Task.id task) (Task.title task) status
                             (Task.createdAt task) now in
        (Ok l, World (<[l := task']> (heap w)) (tasks w))
    end.

(** [tasks.findIndex(p)]; [None] is [-1]. *)
Fixpoint findIndex {A} (p : A → bool) (xs : list A) : option nat :=
  match xs with
  | [] => None
  | x :: r => if p x then Some 0%nat else S <$> findIndex p r
  end.

Definition deleteTask (taskId : jsstring) (w : world) : result loc * world :=
  match findIndex (has_id w taskId) (tasks w) with
  | None => (Throw (not_found_error taskId), w)
  | Some index =>
      (* [const [deletedTask] = tasks.splice(index, 1)] *)
      let w' := World (heap w) (delete index (tasks w)) in
      match tasks w !! index with
      | Some deletedTask => (Ok deletedTask, w')
      | None => (* [deletedTask.title] of [undefined] *)
          (Throw (lit "TypeError"), w')
      end
  end.

Definition clearTasks (w : world) : world := World (heap w) [].

Definition getTaskCount (w : world) : nat := length (tasks w).

Definition getCompletedTaskCount (w : world) : nat :=
  length (filter (λ l, strict_eq (Task.status (deref w l)) (lit "completed"))
                 (tasks w)).

(** ** What a caller can do with a reference it was handed

    An assignment [task.field = value] by code outside the store. *)

Definition assign (l : loc) (f : Task.t → Task.t) (w : world) : world :=
  World (alter f l (heap w)) (tasks w).

Definition set_title (s : jsstring) (t : Task.t) : Task.t :=
  Task.mk (Task.id t) s (Task.status t) (Task.createdAt t) (Task.updatedAt t).

(** ** validation.js *)

Record validation := Validation {
  valid : bool;
  error : option jsstring;
}.

Definition validateTaskTitle (title : jsval) : validation :=
  if negb (truthy title) then
    Validation false (Some (lit "Task title is required"))
  else
    match title with
    | JString s =>
        let trimmed := trim s in
        if (length trimmed =? 0)%nat then
          Validation false (Some (lit "Task title cannot be empty"))
        else if (200 <? length trimmed)%nat then
          Validation false (Some (lit "Task title must be 200 characters or less"))
        else Validation true None
    | _ => Validation false (Some (lit "Task title must be a string"))
    end.

(** ** Numbers

    Counts are array lengths; the completion rate is computed in IEEE-754
    doubles, which the kernel's primitive floats are. *)

Definition number_of_nat (n : nat) : float :=
  PrimFloat.of_uint63 (Uint63.of_Z (Z.of_nat n)).

(** [Math.round]: the integer nearest to [x], a tie going towards
    +infinity.  The result is read off the exact value [±m·2^e] of the
    double, as [floor(x + 1/2)] over the integers.  [None] stands for NaN
    and the infinities, which [Math.round] returns as they are; the sign
    of a zero result is dropped. *)
Definition Math_round (x : float) : option Z :=
  match Prim2SF x with
  | S754_zero _ => Some 0
  | S754_finite s m e =>
      let n := if s then Z.neg m else Z.pos m in
      Some (if 0 <=? e then n * 2 ^ e
            else (2 * n + 2 ^ (- e)) `div` 2 ^ (- e + 1))
  | S754_infinity _ | S754_nan => None
  end.

(** [total > 0 ? Math.round((completed / total) * 100) : 0], the
    expression shared by the statistics route and [getTaskStatistics]. *)
Definition completionRate (completed total : nat) : option Z :=
  if (0 <? total)%nat then
    Math_round (PrimFloat.mul
                  (PrimFloat.div (number_of_nat completed) (number_of_nat total))
                  (number_of_nat 100))
  else Some 0.





(** ** app.js: [GET /api/stats] *)

Record stats := Stats {
  totalTasks : nat;
  completedTasks : nat;
  pendingTasks : Z;
  stats_completionRate : option Z;
}.

(** The [data] object that the handler of [app.get('/api/stats')] sends. *)
Definition apiStats (w : world) : stats :=
  let totalTasks := getTaskCount w in
  let completedTasks := getCompletedTaskCount w in
  let pendingTasks := Z.of_nat totalTasks - Z.of_nat completedTasks in
  Stats totalTasks completedTasks pendingTasks
        (completionRate completedTasks totalTasks).

(** ** taskUtils.js

    The utilities take an array of task records and build new arrays;
    they assign to nothing, so they are functions of their arguments.
    Each starts with a guard that returns a fixed empty result for an
    argument that is not an array; the embedding takes arrays. *)

Record statistics := Statistics {
  total : nat;
  pending : nat;
  completed : nat;
  statistics_completionRate : option Z;
}.

Definition getTaskStatistics (ts : list Task.t) : statistics :=
  let total := length ts in
  let pending :=
    length (filter (λ t, strict_eq (Task.status t) (lit "pending")) ts) in
  let completed :=
    length (filter (λ t, strict_eq (Task.status t) (lit "completed")) ts) in
  Statistics total pending completed (completionRate completed total).

Record page_of (A : Type) := Page {
  page_tasks : list A;
  page : Z;
  pageSize : Z;
  totalPages : Z;
  totalItems : Z;
  hasNextPage : bool;
  hasPrevPage : bool;
}.
Arguments Page {A}.
Arguments page_tasks {A}.
Arguments page {A}.
Arguments pageSize {A}.
Arguments totalPages {A}.
Arguments totalItems {A}.
Arguments hasNextPage {A}.
Arguments hasPrevPage {A}.

(** [xs.slice(start, end)] for [0 <= start <= end]. *)
Definition slice {A} (xs : list A) (start end_ : Z) : list A :=
  take (Z.to_nat (end_ - start)) (drop (Z.to_nat start) xs).

(** [Math.ceil(a / b)] for integers [0 <= a] and [0 < b]: the double
    quotient of two integers below 2^53 lies on the same side of every
    integer as the exact quotient. *)
Definition ceil_div (a b : Z) : Z := (a + b - 1) `div` b.

(** [paginateTasks] on an array, for an integral [page] and an integral
    [pageSize > 0] (for [pageSize <= 0] the source computes with
    [Infinity] and [NaN], which this embedding does not cover). *)
Definition paginateTasks {A} (ts : list A) (page pageSize : Z) : page_of A :=
  let totalItems := Z.of_nat (length ts) in
  let totalPages := ceil_div totalItems pageSize in
  let currentPage :=
    Z.max 1 (Z.min page (if totalPages =? 0 then 1 else totalPages)) in
  let startIndex := (currentPage - 1) * pageSize in
  let endIndex := startIndex + pageSize in
  Page (slice ts startIndex endIndex) currentPage pageSize totalPages
       totalItems (currentPage <? totalPages) (1 <? currentPage).

(** ** One call of the store, as the request layer issues it *)

Inductive call :=
  | CreateTask (title : jsval) (e : create_env)
  | GetTasks
  | GetTaskById (taskId : jsstring)
  | UpdateTaskStatus (taskId : jsstring) (status : jsval) (now : Z)
  | DeleteTask (taskId : jsstring)
  | ClearTasks.

Inductive response :=
  | RTask (r : result loc)
  | RTasks (ls : list loc)
  | RLookup (o : option loc)
  | RDone.

Definition run (c : call) (w : world) : response * world :=
  match c with
  | CreateTask title e => let '(r, w') := createTask title e w in (RTask r, w')
  | GetTasks => let '(ls, w') := getTasks w in (RTasks ls, w')
  | GetTaskById taskId => (RLookup (getTaskById taskId w), w)
  | UpdateTaskStatus taskId status now =>
      let '(r, w') := updateTaskStatus taskId status now w in (RTask r, w')
  | DeleteTask taskId => let '(r, w') := deleteTask taskId w in (RTask r, w')
  | ClearTasks => (RDone, clearTasks w)
  end.


(** The worlds that the program can be in: what calls of the store and
    assignments by its callers make of the empty store. *)
Inductive reachable : world → Prop :=
  | reachable_empty : reachable empty_world
  | reachable_run c w : reachable w → reachable (run c w).2
  | reachable_assign l f w : reachable w → reachable (assign l f w).

(** The ids of the live tasks, in collection order. *)
Definition ids (w : world) : list jsstring := Task.id <$> snapshot w.

(** [n] successive [createTask] calls; each returned task's id is read
    as the call returns. *)
Fixpoint createAll (reqs : list (jsval * create_env)) (w : world)
  : list (result jsstring) * world :=
  match reqs with
  | [] => ([], w)
  | (title, e) :: rest =>
      let '(r, w1) := createTask title e w in
      let returned :=
        match r with
        | Ok l => Ok (Task.id (deref w1 l))
        | Throw m => Throw m
        end in
      let '(rs, w2) := createAll rest w1 in
      (returned :: rs, w2)
  end.

Definition returned_ids (rs : list (result jsstring)) : list jsstring :=
  omap (λ r, match r with Ok i => Some i | Throw _ => None end) rs.

(** The pair that [generateId] draws from the environment. *)
Definition draw (e : create_env) : Z * jsstring := (id_now e, id_random e).

(** The separator of the id format.  A base-36 rendering consists of
    digits and lower-case letters, so the random suffix never contains
    it. *)
Definition hyphen : code_unit := 45%N.

(** ** validation.js, the other validators *)

(** [typeof value === 'string' && value.trim().length > 0]. *)
Definition isNonEmptyString (value : jsval) : bool :=
  match value with
  | JString s => (0 <? length (trim s))%nat
  | _ => false
  end.

Definition validateTaskStatus (status : jsval) : validation :=
  if negb (truthy status) then
    Validation false (Some (lit "Status is required"))
  else if negb (includes validStatuses status) then
    Validation false
      (Some (lit "Status must be one of: " ++ join (lit ", ") validStatuses))
  else Validation true None.

(** [s.startsWith(prefix)]. *)
Definition startsWith (s prefix : jsstring) : bool :=
  bool_decide (take (length prefix) s = prefix).

Definition validateTaskId (id : jsval) : validation :=
  match id with
  | JString s =>
      if negb (truthy id) then
        Validation false (Some (lit "Task ID is required and must be a string"))
      else if negb (startsWith s (lit "task-")) then
        Validation false (Some (lit "Invalid task ID format"))
      else Validation true None
  | _ => (* [!id || typeof id !== 'string'] *)
      Validation false (Some (lit "Task ID is required and must be a string"))
  end.

(** Case folding of a regular expression with the [i] flag and without
    the [u] flag: a code unit of 128 or more is never folded onto an
    ASCII one, so only [A]-[Z] fold onto the letters of a pattern. *)
Definition fold_case (c : code_unit) : code_unit :=
  if ((65 <=? c) && (c <=? 90))%N then (c + 32)%N else c.

(** [/javascript:/i] matches at the head of [s]. *)
Definition matches_javascript (s : jsstring) : bool :=
  bool_decide (fold_case <$> take 11 s = lit "javascript:").

(** [s.replace(/javascript:/gi, '')]: the matches are found from left to
    right and do not overlap; [skip] counts the code units of the current
    match that are still to be dropped. *)
Fixpoint remove_javascript (skip : nat) (s : jsstring) : jsstring :=
  match s with
  | [] => []
  | c :: r =>
      match skip with
      | S k => remove_javascript k r
      | O =>
          if matches_javascript s then remove_javascript 10 r
          else c :: remove_javascript 0 r
      end
  end.

(** [s.replace(/[<>]/g, '')]. *)
Definition remove_angle_brackets (s : jsstring) : jsstring :=
  filter (λ c, c ≠ 60%N ∧ c ≠ 62%N) s.

Definition sanitizeInput (input : jsval) : jsstring :=
  match input with
  | JString s =>
      take 1000 (remove_javascript 0 (remove_angle_brackets (trim s)))
  | _ => []
  end.

(** ** taskUtils.js, filtering, searching and sorting *)

(** [a === b].  Two numbers are compared as doubles, so that [NaN] is not
    equal to itself and the two zeros are equal.  [JObject] stands for an
    object built from a request body, which is identical to no other
    value. *)
Definition strict_equals (a b : jsval) : bool :=
  match a, b with
  | JUndefined, JUndefined => true
  | JNull, JNull => true
  | JBool x, JBool y => bool_decide (x = y)
  | JNumber x, JNumber y => PrimFloat.eqb x y
  | JString x, JString y => bool_decide (x = y)
  | _, _ => false
  end.

Definition filterByStatus (ts : list Task.t) (status : jsval) : list Task.t :=
  if negb (truthy status) then ts
  else filter (λ task, strict_equals (Task.status task) status) ts.

(** [s.includes(term)]: [term] occurs in [s] as a run of consecutive code
    units. *)
Fixpoint string_includes (s term : jsstring) : bool :=
  bool_decide (take (length term) s = term)
  || match s with
     | [] => false
     | _ :: r => string_includes r term
     end.

Section search_tasks.

(** [String.prototype.toLowerCase] follows the Unicode case mappings; it
    is a parameter of the embedding, and what is proved of [searchTasks]
    holds for whatever it computes. *)
Variable toLowerCase : jsstring → jsstring.

(** A search term that is truthy and not a string has no [toLowerCase]
    method: the call [searchTerm.toLowerCase()] throws a [TypeError]. *)
Definition searchTasks (ts : list Task.t) (searchTerm : jsval)
  : result (list Task.t) :=
  if negb (truthy searchTerm) then Ok ts
  else
    match searchTerm with
    | JString s =>
        let term := trim (toLowerCase s) in
        Ok (filter (λ task, string_includes (toLowerCase (Task.title task)) term)
                   ts)
    | _ => Throw (lit "searchTerm.toLowerCase is not a function")
    end.

End search_tasks.

(** [[...xs].sort(cmp)].  [Array.prototype.sort] is stable, and for a
    comparator that orders the elements consistently its result is the
    one sorted arrangement that leaves elements comparing equal in their
    original order; inserting the elements from the right, each before
    the first element it does not come after, computes it. *)
Fixpoint sort_insert {A} (cmp : A → A → Z) (x : A) (xs : list A) : list A :=
  match xs with
  | [] => [x]
  | y :: r => if cmp x y <=? 0 then x :: xs else y :: sort_insert cmp x r
  end.

Definition array_sort {A} (cmp : A → A → Z) (xs : list A) : list A :=
  foldr (sort_insert cmp) [] xs.

(** [dateA - dateB] on the instants that [new Date(a.createdAt)] parses. *)
Definition sortByDate (ts : list Task.t) (order : jsval) : list Task.t :=
  array_sort
    (λ a b, if strict_eq order (lit "asc")
            then Task.createdAt a - Task.createdAt b
            else Task.createdAt b - Task.createdAt a)
    ts.

(** ** app.js: the task routes

    A handler reads [req.params.id] and one field of the JSON body, calls
    the store inside [try], and answers with a status code and a JSON
    envelope; [res.json] serializes the task as it is at that moment. *)

Inductive payload :=
  | NoData
  | TaskData (t : Task.t)
  | TasksData (ts : list Task.t) (count : nat)
  | StatsData (s : stats).

Record http_response := HttpResponse {
  statusCode : Z;
  success : bool;
  message : jsstring;
  data : payload;
}.

(** [POST /api/tasks]; [title] is [req.body.title]. *)
Definition post_api_tasks (title : jsval) (e : create_env) (w : world)
  : http_response * world :=
  match createTask title e w with
  | (Ok task, w') =>
      (HttpResponse 201 true (lit "Task created successfully")
                    (TaskData (deref w' task)), w')
  | (Throw error_message, w') =>
      (HttpResponse 400 false error_message NoData, w')
  end.

(** [GET /api/tasks]. *)
Definition get_api_tasks (w : world) : http_response * world :=
  let '(ts, w') := getTasks w in
  (HttpResponse 200 true (lit "Tasks retrieved successfully")
                (TasksData (deref w' <$> ts) (length ts)), w').

(** [GET /api/tasks/:id]. *)
Definition get_api_task (id : jsstring) (w : world) : http_response * world :=
  match getTaskById id w with
  | None =>
      (HttpResponse 404 false (lit "Task with ID " ++ id ++ lit " not found")
                    NoData, w)
  | Some task =>
      (HttpResponse 200 true (lit "Task retrieved successfully")
                    (TaskData (deref w task)), w)
  end.

(** [PUT /api/tasks/:id]; [status] is [req.body.status]. *)
Definition put_api_task (id : jsstring) (status : jsval) (now : Z) (w : world)
  : http_response * world :=
  match updateTaskStatus id status now w with
  | (Ok task, w') =>
      (HttpResponse 200 true (lit "Task updated successfully")
                    (TaskData (deref w' task)), w')
  | (Throw error_message, w') =>
      (HttpResponse 400 false error_message NoData, w')
  end.

(** [DELETE /api/tasks/:id]. *)
Definition delete_api_task (id : jsstring) (w : world)
  : http_response * world :=
  match deleteTask id w with
  | (Ok task, w') =>
      (HttpResponse 200 true (lit "Task deleted successfully")
                    (TaskData (deref w' task)), w')
  | (Throw error_message, w') =>
      (HttpResponse 400 false error_message NoData, w')
  end.

(** [GET /api/stats]. *)
Definition get_api_stats (w : world) : http_response * world :=
  (HttpResponse 200 true (lit "Statistics retrieved successfully")
                (StatsData (apiStats w)), w).



(** ** health.js: [formatUptime]

    The argument is a Number.  The embedding covers the whole numbers of
    seconds of magnitude below 2^53, which doubles hold exactly: there
    [Math.floor(seconds / 86400)] is the integer quotient rounded down
    (the quotient of the doubles lies on the same side of every integer
    as the exact quotient, half the spacing of the doubles below 2^37
    being less than 1/86400), [%] is the remainder with the sign of the
    dividend, and each part is printed with its decimal digits.  For any
    other argument the embedding answers [None]. *)

Record uptime_parts := UptimeParts {
  days : Z;
  hours : Z;
  minutes : Z;
  secs : Z;
}.

Definition uptime_split (seconds : Z) : option uptime_parts :=
  if Z.abs seconds <? 2 ^ 53 then
    Some (UptimeParts (seconds `div` 86400)
                      (Z.rem seconds 86400 `div` 3600)
                      (Z.rem seconds 3600 `div` 60)
                      (Z.rem seconds 60))
  else None.

Definition formatUptime (seconds : Z) : option jsstring :=
  match uptime_split seconds with
  | Some p =>
      Some (join (lit " ")
              ((if 0 <? days p then [number_to_string (days p) ++ lit "d"]
                else [])
               ++ (if 0 <? hours p then [number_to_string (hours p) ++ lit "h"]
                   else [])
               ++ (if 0 <? minutes p
                   then [number_to_string (minutes p) ++ lit "m"] else [])
               ++ [number_to_string (secs p) ++ lit "s"]))
  | None => None
  end.

(** ** Histories of the store *)

(** A sequence of calls, issued one after the other. *)
Fixpoint run_all (cs : list call) (w : world) : world :=
  match cs with
  | [] => w
  | c :: rest => run_all rest (run c w).2
  end.

(** What the store keeps true of each task it holds. *)
Definition task_ok (t : Task.t) : Prop :=
  (Task.status t = JString (lit "pending")
   ∨ Task.status t = JString (lit "completed")) ∧
  isNonEmptyString (JString (Task.title t)) = true ∧
  trim (Task.title t) = Task.title t ∧
  valid (validateTaskId (JString (Task.id t))) = true.

(** ** Sample data

    Concrete environments and stores on which the statements below are
    instantiated. *)

(** One task, created at 2023-11-14T22:13:20.000Z. *)
Definition sample_env : create_env :=
  CreateEnv 1700000000000 (lit "k3j2h1g0f") 1700000000000 1700000000000.

Definition sample_id : jsstring := generateId 1700000000000 (lit "k3j2h1g0f").

Definition sample_world : world :=
  (createTask (JString (lit "Buy groceries")) sample_env empty_world).2.

(** A store that holds the same id twice: two tasks created in the same
    millisecond with the same random suffix. *)
Definition clash_world : world :=
  (createTask (JString (lit "Walk the dog")) sample_env sample_world).2.

(** A store of 40 tasks, created one millisecond apart, of which the
    first 23 were then completed. *)
Definition nth_env (k : nat) : create_env :=
  CreateEnv (1700000000000 + Z.of_nat k) (lit "k3j2h1g0f")
            (1700000000000 + Z.of_nat k) (1700000000000 + Z.of_nat k).

Fixpoint filled_world (n : nat) : world :=
  match n with
  | O => empty_world
  | S k => (createTask (JString (lit "Water the plants")) (nth_env k)
                       (filled_world k)).2
  end.

Fixpoint complete_first (k : nat) (w : world) : world :=
  match k with
  | O => w
  | S j => (updateTaskStatus
              (generateId (1700000000000 + Z.of_nat j) (lit "k3j2h1g0f"))
              (JString (lit "completed")) 1700000001000
              (complete_first j w)).2
  end.

Definition store_23_of_40 : world := complete_first 23 (filled_world 40).

(** * Lemmas *)

(** ** Searching an array *)

Section search.

Context {A : Type} (p : A → bool).

Lemma findIndex_Some xs i :
  findIndex p xs = Some i →
  ∃ x, xs !! i = Some x ∧ p x = true ∧ find p xs = Some x.
Proof.
  revert i. induction xs as [|y r IH]; intros i; simpl; [done|].
  destruct (p y) eqn:Hy.
  - intros [= <-]. eauto.
  - destruct (findIndex p r) as [j|]; simpl; [|done].
    intros [= <-]. destruct (IH j eq_refl) as (x & ? & ? & ?). eauto.
Qed.

Lemma findIndex_first xs i j y :
  findIndex p xs = Some i → (j < i)%nat → xs !! j = Some y → p y = false.
Proof.
  revert i j. induction xs as [|x r IH]; intros i j; simpl; [done|].
  destruct (p x) eqn:Hx.
  - intros [= <-]. lia.
  - destruct (findIndex p r) as [k|] eqn:Hk; simpl; [|done].
    intros [= <-] Hj. destruct j as [|j]; simpl.
    + by intros [= <-].
    + apply (IH k); [done|lia].
Qed.

Lemma findIndex_None xs : findIndex p xs = None ↔ find p xs = None.
Proof.
  induction xs as [|y r IH]; simpl; [done|].
  destruct (p y); [done|].
  destruct (findIndex p r); simpl.
  - split; [done|]. intros H. by apply IH in H.
  - split; [|done]. intros _. by apply IH.
Qed.

Lemma find_Some_findIndex xs x :
  find p xs = Some x → ∃ i, findIndex p xs = Some i ∧ xs !! i = Some x.
Proof.
  induction xs as [|y r IH]; simpl; [done|].
  destruct (p y).
  - intros [= <-]. by exists 0%nat.
  - intros H. destruct (IH H) as (i & -> & ?). by exists (S i).
Qed.

Lemma find_Some_elem xs x : find p xs = Some x → x ∈ xs ∧ p x = true.
Proof.
  intros H. apply find_some in H as [H ?]. by apply list_elem_of_In in H.
Qed.

Lemma find_None_elem xs x : find p xs = None → x ∈ xs → p x = false.
Proof.
  intros H Hx. apply list_elem_of_In in Hx. by eapply find_none.
Qed.

Lemma find_agree (q : A → bool) xs :
  (∀ x, x ∈ xs → p x = q x) → find p xs = find q xs.
Proof.
  induction xs as [|y r IH]; intros H; simpl; [done|].
  rewrite <- (H y) by apply list_elem_of_here.
  destruct (p y); [done|]. apply IH. intros x Hx. apply H.
  by apply list_elem_of_further.
Qed.
End search.

(** ** The heap behind the store *)

Lemma deref_grow h ts tk tk' l :
  (l < length h)%nat → deref (World (h ++ ts) tk) l = deref (World h tk') l.
Proof. intros. unfold deref; simpl. by apply lookup_total_app_l. Qed.

Lemma fmap_deref_agree w w' (ls : list loc) :
  (∀ l, l ∈ ls → deref w' l = deref w l) → deref w' <$> ls = deref w <$> ls.
Proof.
  induction ls as [|l ls IH]; intros H; simpl; [done|]. f_equal.
  - apply H, list_elem_of_here.
  - apply IH. intros l' Hl'. by apply H, list_elem_of_further.
Qed.

Lemma wf_bound w l : wf w → l ∈ tasks w → (l < length (heap w))%nat.
Proof.
  intros [Hb _] Hl. rewrite Forall_forall in Hb. by apply Hb.
Qed.

Lemma snapshot_grow w ts :
  wf w → snapshot (World (heap w ++ ts) (tasks w)) = snapshot w.
Proof.
  intros Hwf. unfold snapshot; simpl. apply fmap_deref_agree.
  intros l Hl. destruct w as [h tk]; simpl in *.
  apply deref_grow. by apply (wf_bound (World h tk)).
Qed.

Lemma length_snapshot w : length (snapshot w) = getTaskCount w.
Proof. unfold snapshot, getTaskCount. by rewrite length_fmap. Qed.

Lemma has_id_agree w w' taskId (ls : list loc) :
  (∀ l, l ∈ ls → Task.id (deref w' l) = Task.id (deref w l)) →
  find (has_id w' taskId) ls = find (has_id w taskId) ls.
Proof.
  intros H. apply find_agree. intros l Hl. unfold has_id. by rewrite H.
Qed.

(** ** What each operation returns and does to the world *)

Lemma includes_validStatuses v :
  includes validStatuses v = true ↔
  v = JString (lit "pending") ∨ v = JString (lit "completed").
Proof.
  unfold includes, validStatuses; simpl. rewrite !orb_true_iff.
  destruct v; simpl; try (split; [intros [?|[?|?]]|intros [?|?]]; done).
  rewrite !bool_decide_eq_true. split.
  - intros [->|[->|?]]; [by left|by right|done].
  - intros [[= ->]|[= ->]]; [by left|by right; left].
Qed.

Lemma createTask_throw title e w :
  (∀ s, title = JString s → trim s = []) →
  createTask title e w = (Throw title_error, w).
Proof.
  intros H. destruct title as [| | | |s|]; try done. simpl.
  rewrite (H s eq_refl).
  rewrite (bool_decide_eq_true_2 (@nil code_unit = [])) by done.
  by rewrite orb_true_r.
Qed.

Lemma trim_nonempty s : trim s ≠ [] → s ≠ [].
Proof. by intros H ->. Qed.

Lemma createTask_ok s e w :
  trim s ≠ [] →
  createTask (JString s) e w =
    (Ok (length (heap w)),
     World (heap w ++ [Task.mk (generateId (id_now e) (id_random e)) (trim s)
                               (JString (lit "pending"))
                               (created_now e) (updated_now e)])
           (tasks w ++ [length (heap w)])).
Proof.
  intros H. unfold createTask; simpl.
  rewrite (bool_decide_eq_false_2 (s = [])) by by apply trim_nonempty.
  by rewrite (bool_decide_eq_false_2 (trim s = [])) by done.
Qed.

Lemma createTask_cases title e w :
  (createTask title e w = (Throw title_error, w)) ∨
  (∃ s, title = JString s ∧ trim s ≠ []).
Proof.
  destruct title as [| | | |s|]; try (by left).
  destruct (decide (trim s = [])) as [Hs|Hs].
  - left. apply createTask_throw. by intros ? [= <-].
  - right. eauto.
Qed.

Lemma updateTaskStatus_invalid taskId status now w :
  includes validStatuses status = false →
  updateTaskStatus taskId status now w
  = (Throw (default status_error (template_throws status)), w).
Proof.
  intros H. unfold updateTaskStatus. rewrite H. cbn [negb].
  by destruct (template_throws status).
Qed.

Lemma updateTaskStatus_invalid_convertible taskId status now w :
  includes validStatuses status = false → template_throws status = None →
  updateTaskStatus taskId status now w = (Throw status_error, w).
Proof. intros H Hc. by rewrite updateTaskStatus_invalid, Hc. Qed.

Lemma template_throws_Some status type_error :
  template_throws status = Some type_error →
  status = JObject false ∧ type_error = cannot_convert_error ∧
  includes validStatuses status = false.
Proof. destruct status as [| | | | |[]]; try done. by intros [= <-]. Qed.

Lemma updateTaskStatus_missing taskId status now w :
  includes validStatuses status = true →
  getTaskById taskId w = None →
  updateTaskStatus taskId status now w = (Throw (not_found_error taskId), w).
Proof.
  intros H Hf. unfold updateTaskStatus, getTaskById in *. by rewrite H, Hf.
Qed.

Lemma updateTaskStatus_ok taskId status now w l :
  includes validStatuses status = true →
  getTaskById taskId w = Some l →
  updateTaskStatus taskId status now w =
    (Ok l,
     World (<[l := Task.mk (Task.id (deref w l)) (Task.title (deref w l))
                           status (Task.createdAt (deref w l)) now]> (heap w))
           (tasks w)).
Proof.
  intros H Hf. unfold updateTaskStatus, getTaskById in *. by rewrite H, Hf.
Qed.

Lemma deleteTask_missing taskId w :
  getTaskById taskId w = None →
  deleteTask taskId w = (Throw (not_found_error taskId), w).
Proof.
  unfold getTaskById, deleteTask. intros H.
  by rewrite (proj2 (findIndex_None _ _) H).
Qed.

Lemma deleteTask_ok taskId w l :
  getTaskById taskId w = Some l →
  ∃ index, findIndex (has_id w taskId) (tasks w) = Some index ∧
           tasks w !! index = Some l ∧
           deleteTask taskId w =
             (Ok l, World (heap w) (delete index (tasks w))).
Proof.
  unfold getTaskById, deleteTask. intros H.
  destruct (find_Some_findIndex _ _ _ H) as (i & Hi & Hl).
  exists i. by rewrite Hi, Hl.
Qed.

(** ** Well-formedness is an invariant *)

Lemma wf_empty : wf empty_world.
Proof. split; [constructor|apply NoDup_nil_2]. Qed.

Lemma wf_createTask title e w : wf w → wf (createTask title e w).2.
Proof.
  intros Hwf. destruct (createTask_cases title e w) as [->|(s & -> & Hs)];
    [done|].
  rewrite createTask_ok by done. simpl. destruct Hwf as [Hb Hn]. split; simpl.
  - rewrite length_app; simpl. apply Forall_app. split.
    + eapply Forall_impl; [exact Hb|]. simpl. lia.
    + repeat constructor. lia.
  - apply NoDup_app. split; [done|]. split; [|apply NoDup_singleton].
    intros l Hl Hl'. apply list_elem_of_singleton in Hl' as ->.
    rewrite Forall_forall in Hb. apply Hb in Hl. lia.
Qed.

Lemma wf_getTasks w : wf w → wf (getTasks w).2.
Proof.
  intros [Hb Hn]. split; simpl; [|done]. rewrite length_app.
  eapply Forall_impl; [exact Hb|]. simpl. lia.
Qed.

Lemma wf_updateTaskStatus taskId status now w :
  wf w → wf (updateTaskStatus taskId status now w).2.
Proof.
  intros Hwf. unfold updateTaskStatus.
  destruct (includes validStatuses status); simpl;
    [|by destruct (template_throws status)].
  destruct (find _ _); simpl; [|done].
  destruct Hwf as [Hb Hn]. split; simpl; [|done]. by rewrite length_insert.
Qed.

Lemma wf_delete w index : wf w → wf (World (heap w) (delete index (tasks w))).
Proof.
  intros [Hb Hn]. split; simpl.
  - by apply Forall_delete.
  - eapply sublist_NoDup; [exact Hn|apply sublist_delete].
Qed.

Lemma wf_deleteTask taskId w : wf w → wf (deleteTask taskId w).2.
Proof.
  intros Hwf. unfold deleteTask. destruct (findIndex _ _); [|done].
  destruct (tasks w !! _); simpl; by apply wf_delete.
Qed.

Lemma wf_clearTasks w : wf w → wf (clearTasks w).
Proof. intros _. split; simpl; [constructor|apply NoDup_nil_2]. Qed.

Lemma wf_assign l f w : wf w → wf (assign l f w).
Proof.
  intros [Hb Hn]. split; simpl; [|done]. by rewrite length_alter.
Qed.

Lemma wf_run c w : wf w → wf (run c w).2.
Proof.
  intros Hwf. destruct c; simpl.
  - pose proof (wf_createTask title e w Hwf). by destruct (createTask _ _ _).
  - by apply (wf_getTasks w).
  - done.
  - pose proof (wf_updateTaskStatus taskId status now w Hwf).
    by destruct (updateTaskStatus _ _ _ _).
  - pose proof (wf_deleteTask taskId w Hwf). by destruct (deleteTask _ _).
  - by apply wf_clearTasks.
Qed.

Lemma reachable_wf w : reachable w → wf w.
Proof.
  induction 1 as [|c w _ IH|l f w _ IH].
  - apply wf_empty.
  - by apply wf_run.
  - by apply wf_assign.
Qed.

(** ** The snapshot after each operation *)

Lemma find_None_intro {A} (p : A → bool) xs :
  (∀ x, x ∈ xs → p x = false) → find p xs = None.
Proof.
  induction xs as [|y r IH]; intros H; simpl; [done|].
  rewrite (H y) by apply list_elem_of_here.
  apply IH. intros x Hx. by apply H, list_elem_of_further.
Qed.

Lemma deref_new h tk (t : Task.t) : deref (World (h ++ [t]) tk) (length h) = t.
Proof. unfold deref; simpl. by apply list_lookup_total_middle. Qed.

Lemma deref_store h tk tk' l l' (t : Task.t) :
  deref (World (<[l := t]> h) tk) l' =
    if decide (l = l' ∧ (l < length h)%nat) then t else deref (World h tk') l'.
Proof. unfold deref; simpl. apply list_lookup_total_insert. Qed.

Lemma snapshot_createTask s e w :
  wf w → trim s ≠ [] →
  snapshot (createTask (JString s) e w).2 =
    snapshot w ++ [Task.mk (generateId (id_now e) (id_random e)) (trim s)
                           (JString (lit "pending"))
                           (created_now e) (updated_now e)].
Proof.
  intros Hwf Hs. rewrite createTask_ok by done. unfold snapshot; simpl.
  rewrite fmap_app; simpl. rewrite deref_new. f_equal.
  apply fmap_deref_agree. intros l Hl. destruct w as [h tk]; simpl in *.
  apply deref_grow. by apply (wf_bound (World h tk)).
Qed.

Lemma snapshot_getTasks w : wf w → snapshot (getTasks w).2 = snapshot w.
Proof. intros Hwf. unfold getTasks; simpl. by apply snapshot_grow. Qed.

Lemma snapshot_store w l i (t : Task.t) :
  wf w → tasks w !! i = Some l →
  snapshot (World (<[l := t]> (heap w)) (tasks w)) = <[i := t]> (snapshot w).
Proof.
  intros Hwf Hi. pose proof (wf_bound w l Hwf) as Hl.
  destruct w as [h tk]; simpl in *. unfold snapshot; simpl.
  apply list_eq. intros j. rewrite list_lookup_fmap.
  rewrite list_lookup_insert, length_fmap, list_lookup_fmap.
  destruct (tk !! j) as [l'|] eqn:Hj; simpl.
  - rewrite (deref_store h tk tk). f_equal.
    destruct (decide (i = j)) as [->|Hij].
    + assert (l' = l) as -> by congruence.
      apply lookup_lt_Some in Hi.
      rewrite !decide_True; [done|split; [done|]|split; [done|]]; [done|].
      apply Hl. by eapply list_elem_of_lookup_2.
    + rewrite !decide_False; [done| |].
      * intros [? _]. done.
      * intros [-> _]. destruct Hwf as [_ Hn]; simpl in Hn.
        by destruct (Hij (NoDup_lookup _ _ _ _ Hn Hi Hj)).
  - case_decide as H; [|done]. destruct H as [-> H].
    apply lookup_lt_is_Some_2 in H as [? ?]. congruence.
Qed.

Lemma ids_store w l t :
  Task.id t = Task.id (deref w l) →
  ids (World (<[l := t]> (heap w)) (tasks w)) = ids w.
Proof.
  intros Ht. unfold ids, snapshot; simpl. rewrite <- !list_fmap_compose.
  apply list_fmap_ext. intros j l' _. simpl.
  destruct w as [h tk]; simpl in *. rewrite (deref_store h tk tk).
  case_decide as H; [|done]. by destruct H as [<- _].
Qed.

Lemma snapshot_delete h tk index :
  snapshot (World h (delete index tk)) = delete index (snapshot (World h tk)).
Proof. unfold snapshot; simpl. apply list_fmap_delete. Qed.

Lemma getTaskById_Some taskId w l :
  getTaskById taskId w = Some l →
  Task.id (deref w l) = taskId ∧ ∃ i, tasks w !! i = Some l.
Proof.
  intros H. apply find_Some_elem in H as [Hl Hid]. split.
  - unfold has_id in Hid. by apply bool_decide_eq_true in Hid.
  - by apply list_elem_of_lookup_1.
Qed.

Lemma updateTaskStatus_spec taskId status now w l i :
  wf w → getTaskById taskId w = Some l → tasks w !! i = Some l →
  includes validStatuses status = true →
  let t' := Task.mk (Task.id (deref w l)) (Task.title (deref w l)) status
                    (Task.createdAt (deref w l)) now in
  ∃ w', updateTaskStatus taskId status now w = (Ok l, w') ∧
        deref w' l = t' ∧
        snapshot w' = <[i := t']> (snapshot w) ∧
        wf w' ∧ getTaskById taskId w' = Some l ∧ tasks w' = tasks w.
Proof.
  intros Hwf Hl Hi Hs t'. eexists. split; [by apply updateTaskStatus_ok|].
  assert (Hb : (l < length (heap w))%nat).
  { apply wf_bound; [done|]. by eapply list_elem_of_lookup_2. }
  fold t'. split; [|split; [|split; [|split]]]; try done.
  - destruct w as [h tk]. rewrite (deref_store h tk tk). by rewrite decide_True.
  - by apply snapshot_store.
  - pose proof (wf_updateTaskStatus taskId status now w Hwf) as H.
    by rewrite (updateTaskStatus_ok _ _ _ _ l) in H.
  - rewrite <- Hl. unfold getTaskById; simpl. apply has_id_agree.
    intros l' _. destruct w as [h tk]; simpl. rewrite (deref_store h tk tk).
    case_decide as H; [|done]. by destruct H as [<- _].
Qed.

(** ** The id format is injective in what it draws *)

Lemma code_units_of_ascii_inv (cs : list ascii) :
  map ascii_of_N (map N_of_ascii cs) = cs.
Proof.
  induction cs as [|c cs IH]; simpl; [done|].
  by rewrite ascii_N_embedding, IH.
Qed.

Lemma lit_inj s s' : lit s = lit s' → s = s'.
Proof.
  unfold lit. intros H.
  apply (f_equal (map ascii_of_N)) in H.
  rewrite !code_units_of_ascii_inv in H.
  apply (f_equal string_of_list_ascii) in H.
  by rewrite !string_of_list_ascii_of_string in H.
Qed.

Lemma number_to_string_inj z z' :
  number_to_string z = number_to_string z' → z = z'.
Proof.
  unfold number_to_string. intros H%lit_inj.
  apply (f_equal NilEmpty.int_of_string) in H.
  rewrite !NilEmpty.isi in H. injection H as H. by apply DecimalZ.to_int_inj.
Qed.

Lemma split_at_first {A} (x : A) s s' u u' :
  x ∉ s → x ∉ s' → s ++ x :: u = s' ++ x :: u' → s = s' ∧ u = u'.
Proof.
  revert s'. induction s as [|a s IH]; intros [|a' s'] Hs Hs'; simpl.
  - by intros [= ->].
  - intros [= -> _]. destruct Hs'. apply list_elem_of_here.
  - intros [= -> _]. destruct Hs. apply list_elem_of_here.
  - intros [= -> H]. apply IH in H as [-> ->]; [done| |].
    + intros ?. by apply Hs, list_elem_of_further.
    + intros ?. by apply Hs', list_elem_of_further.
Qed.

Lemma split_at_last {A} (x : A) a a' r r' :
  x ∉ r → x ∉ r' → a ++ x :: r = a' ++ x :: r' → a = a' ∧ r = r'.
Proof.
  intros Hr Hr' H. apply (f_equal (@rev A)) in H.
  rewrite !rev_app_distr in H; simpl in H. rewrite <- !app_assoc in H.
  simpl in H. apply split_at_first in H as [H1 H2].
  - apply (f_equal (@rev A)) in H1, H2.
    rewrite !rev_involutive in H1, H2. by subst.
  - intros ?%list_elem_of_In%in_rev%list_elem_of_In. done.
  - intros ?%list_elem_of_In%in_rev%list_elem_of_In. done.
Qed.

Lemma generateId_inj now random now' random' :
  hyphen ∉ random → hyphen ∉ random' →
  generateId now random = generateId now' random' →
  now = now' ∧ random = random'.
Proof.
  unfold generateId. intros Hr Hr' H. apply app_inv_head in H.
  change (lit "-" ++ random) with (hyphen :: random) in H.
  change (lit "-" ++ random') with (hyphen :: random') in H.
  apply split_at_last in H as [H ->]; [|done..].
  split; [|done]. by apply number_to_string_inj.
Qed.

(** ** Assignments by a caller *)

Lemma deref_assign l f w l' :
  deref (assign l f w) l' =
    if decide (l = l' ∧ (l < length (heap w))%nat) then f (deref w l)
    else deref w l'.
Proof. unfold deref, assign; simpl. apply list_lookup_total_alter. Qed.

Lemma snapshot_assign_stored w l i f :
  wf w → tasks w !! i = Some l →
  snapshot (assign l f w) = <[i := f (deref w l)]> (snapshot w).
Proof.
  intros Hwf Hi. rewrite <- (snapshot_store w l i) by done.
  unfold snapshot; simpl. apply list_fmap_ext. intros j l' Hj.
  rewrite deref_assign. destruct w as [h tk]; simpl.
  rewrite (deref_store h tk tk). by repeat case_decide.
Qed.

Lemma snapshot_assign_foreign w l f :
  l ∉ tasks w → snapshot (assign l f w) = snapshot w.
Proof.
  intros Hl. unfold snapshot; simpl. apply list_fmap_ext. intros j l' Hj.
  rewrite deref_assign. case_decide as H; [|done]. destruct H as [-> _].
  destruct Hl. by eapply list_elem_of_lookup_2.
Qed.

(** [getTasks] hands out copies: no assignment to a task it returned can
    be seen in the store. *)
Lemma getTasks_copies_are_independent w l f :
  wf w → l ∈ (getTasks w).1 →
  snapshot (assign l f (getTasks w).2) = snapshot w.
Proof.
  intros Hwf Hl. rewrite snapshot_assign_foreign.
  - by apply snapshot_getTasks.
  - simpl in *. apply elem_of_seq in Hl. intros Hl'.
    apply (wf_bound w l Hwf) in Hl'. lia.
Qed.

(** [createTask] and [getTaskById] hand out the stored object itself. *)
Lemma createTask_returns_stored_reference title e w l w' :
  createTask title e w = (Ok l, w') → l ∈ tasks w'.
Proof.
  destruct (createTask_cases title e w) as [->|(s & -> & Hs)]; [done|].
  rewrite createTask_ok by done. intros [= <- <-]. simpl.
  apply elem_of_app. right. apply list_elem_of_here.
Qed.

Lemma getTaskById_returns_stored_reference taskId w l :
  getTaskById taskId w = Some l → l ∈ tasks w.
Proof. intros H. by apply find_Some_elem in H as [? _]. Qed.

(** * Properties of the store *)

Lemma reachable_sample_world : reachable sample_world.
Proof.
  apply (reachable_run (CreateTask (JString (lit "Buy groceries")) sample_env)
                       empty_world), reachable_empty.
Qed.

Lemma reachable_clash_world : reachable clash_world.
Proof.
  apply (reachable_run (CreateTask (JString (lit "Walk the dog")) sample_env)
                       sample_world), reachable_sample_world.
Qed.

Lemma wf_sample_world : wf sample_world.
Proof. apply reachable_wf, reachable_sample_world. Qed.

(** ** Order of the checks in [updateTaskStatus] *)




(** ** Atomicity of failing calls *)



(** ** Creating a task *)

(** C3, as amended: for every valid title, a string of 1 to 200
    characters after trimming, [createTask] succeeds; the returned task
    has status ["pending"] and the trimmed title; [createdAt] is the
    first and [updatedAt] the second of two successive clock readings, so
    the two are equal whenever the clock did not advance between the
    reads; the task is appended at the end of the collection, whose count
    grows by exactly one. *)
Theorem createTask_appends_pending_task s e w :
  wf w → (1 ≤ length (trim s) ≤ 200)%nat →
  ∃ l w',
    createTask (JString s) e w = (Ok l, w') ∧
    Task.status (deref w' l) = JString (lit "pending") ∧
    Task.title (deref w' l) = trim s ∧
    Task.createdAt (deref w' l) = created_now e ∧
    Task.updatedAt (deref w' l) = updated_now e ∧
    (created_now e = updated_now e →
     Task.createdAt (deref w' l) = Task.updatedAt (deref w' l)) ∧
    snapshot w' = snapshot w ++ [deref w' l] ∧
    getTaskCount w' = S (getTaskCount w).
Proof.
  intros Hwf Hlen.
  assert (Hs : trim s ≠ []) by (intros E; rewrite E in Hlen; simpl in Hlen; lia).
  eexists _, _. split; [by apply createTask_ok|].
  rewrite deref_new; simpl. repeat split; try done.
  - rewrite <- (snapshot_createTask s e w) by done. by rewrite createTask_ok.
  - unfold getTaskCount; simpl. rewrite length_app; simpl. lia.
Qed.

Lemma createTask_appends_pending_task_witness :
  ∃ l w',
    createTask (JString (lit "  Buy groceries ")) sample_env sample_world
      = (Ok l, w') ∧
    Task.status (deref w' l) = JString (lit "pending") ∧
    Task.title (deref w' l) = lit "Buy groceries" ∧
    Task.createdAt (deref w' l) = 1700000000000 ∧
    Task.updatedAt (deref w' l) = 1700000000000 ∧
    (1700000000000 = 1700000000000 →
     Task.createdAt (deref w' l) = Task.updatedAt (deref w' l)) ∧
    snapshot w' = snapshot sample_world ++ [deref w' l] ∧
    getTaskCount w' = 2%nat.
Proof.
  apply (createTask_appends_pending_task
           (lit "  Buy groceries ") sample_env sample_world).
  - exact wf_sample_world.
  - vm_compute. lia.
Defined.

(** The claim as first stated asks for [createdAt] equal to [updatedAt]
    on every successful call; the clock may tick between the two reads. *)
Lemma createTask_timestamps_counterexample :
  let e := CreateEnv 1700000000000 (lit "k3j2h1g0f")
                     1700000000000 1700000000001 in
  valid (validateTaskTitle (JString (lit "Buy groceries"))) = true ∧
  ∃ l w',
    createTask (JString (lit "Buy groceries")) e empty_world = (Ok l, w') ∧
    Task.createdAt (deref w' l) ≠ Task.updatedAt (deref w' l).
Proof.
  split; [reflexivity|]. eexists _, _. split; [reflexivity|].
  vm_compute. discriminate.
Qed.

(** ** Updating a status *)




(** ** Deleting a task *)

(** What [deleteTask] does on every store: for an id that a live task
    carries it returns the first task of the collection with that id and
    removes exactly that entry, so that the count drops by exactly one
    and the other tasks keep their order and contents, and, provided the
    ids of the live tasks are pairwise distinct, a following
    [getTaskById] with the id returns [null] without throwing; for an id
    that no live task carries it throws the not-found error and changes
    nothing. *)
Lemma deleteTask_removes_first_match taskId w :
  wf w →
  (∀ l, getTaskById taskId w = Some l →
     ∃ index w',
       deleteTask taskId w = (Ok l, w') ∧
       tasks w !! index = Some l ∧
       Task.id (deref w l) = taskId ∧
       deref w' l = deref w l ∧
       snapshot w' = delete index (snapshot w) ∧
       S (getTaskCount w') = getTaskCount w ∧
       (NoDup (ids w) → getTaskById taskId w' = None)) ∧
  (getTaskById taskId w = None →
     deleteTask taskId w = (Throw (not_found_error taskId), w)).
Proof.
  intros Hwf. split; [|apply deleteTask_missing].
  intros l Hl. destruct (deleteTask_ok _ _ _ Hl) as (i & Hfi & Hi & Hd).
  destruct (getTaskById_Some _ _ _ Hl) as [Hid _].
  exists i, (World (heap w) (delete i (tasks w))).
  split; [done|]. split; [done|]. split; [done|]. split; [done|].
  destruct w as [h tk]; simpl in *. split; [apply snapshot_delete|].
  split.
  { unfold getTaskCount; simpl. rewrite length_delete by eauto.
    apply lookup_lt_Some in Hi. lia. }
  intros Hnd. apply find_None_intro. intros l' Hl'.
  apply list_elem_of_lookup_1 in Hl' as [j Hj].
  simpl in Hj. rewrite list_lookup_delete in Hj.
  apply bool_decide_eq_false. intros Hid'.
  assert (Hk : ∀ k l'', tk !! k = Some l'' →
                 ids (World h tk) !! k = Some (Task.id (deref (World h tk) l''))).
  { intros k l'' Hk. unfold ids, snapshot; simpl.
    by rewrite !list_lookup_fmap, Hk. }
  pose proof (Hk _ _ Hi) as H1. pose proof (Hk _ _ Hj) as H2.
  unfold deref in Hid', H1, H2, Hid; simpl in *.
  rewrite Hid in H1. rewrite Hid' in H2.
  pose proof (NoDup_lookup _ _ _ _ Hnd H1 H2) as Heq.
  case_decide; lia.
Qed.

Example deleteTask_removes_first_match_on_the_sample :
  (∃ index w',
     deleteTask sample_id sample_world = (Ok 0%nat, w') ∧
     tasks sample_world !! index = Some 0%nat ∧
     S (getTaskCount w') = getTaskCount sample_world ∧
     getTaskById sample_id w' = None) ∧
  deleteTask (lit "task-0-missing") sample_world
    = (Throw (not_found_error (lit "task-0-missing")), sample_world).
Proof.
  destruct (deleteTask_removes_first_match sample_id sample_world
              wf_sample_world) as [Hpresent _].
  destruct (deleteTask_removes_first_match (lit "task-0-missing") sample_world
              wf_sample_world) as [_ Habsent].
  split; [|by apply Habsent].
  destruct (Hpresent 0%nat eq_refl)
    as (index & w' & Hd & Hi & _ & _ & _ & Hc & Hg).
  exists index, w'. split; [done|]. split; [done|]. split; [done|].
  apply Hg. vm_compute. repeat constructor. by intros ?%elem_of_nil.
Defined.

(** C5, where the code departs from it: [deleteTask] removes the entry
    at [findIndex], the first task with the id, and nothing checks that
    it is the only one.  After two [createTask] calls that drew the same
    timestamp and the same suffix, the store holds two tasks with one
    id; [deleteTask] on that id returns the first, the count drops from
    2 to 1, and [getTaskById] on the id then returns the second task,
    not [null].  ([deleteTask_removes_first_match] has what holds on
    every store, and that the lookup after a successful delete returns
    [null] when the ids are pairwise distinct.) *)
Theorem deleteTask_leaves_a_task_with_the_id :
  reachable clash_world ∧
  clash_world
  = run_all [CreateTask (JString (lit "Buy groceries")) sample_env;
             CreateTask (JString (lit "Walk the dog")) sample_env]
            empty_world ∧
  getTaskCount clash_world = 2%nat ∧
  (∃ w', deleteTask sample_id clash_world = (Ok 0%nat, w') ∧
         getTaskCount w' = 1%nat ∧
         getTaskById sample_id w' = Some 1%nat ∧
         Task.id (deref w' 1%nat) = sample_id ∧
         Task.title (deref w' 1%nat) = lit "Walk the dog").
Proof.
  split; [exact reachable_clash_world|]. split; [reflexivity|].
  split; [reflexivity|].
  eexists. split; [reflexivity|]. split; [reflexivity|].
  split; [reflexivity|]. split; reflexivity.
Qed.

(** ** Uniqueness of ids *)

Lemma createAll_cons title e rest w :
  createAll ((title, e) :: rest) w =
    (match (createTask title e w).1 with
     | Ok l => Ok (Task.id (deref (createTask title e w).2 l))
     | Throw m => Throw m
     end :: (createAll rest (createTask title e w).2).1,
     (createAll rest (createTask title e w).2).2).
Proof.
  simpl. destruct (createTask title e w) as [r w1]. simpl.
  by destruct (createAll rest w1).
Qed.

Lemma createAll_returned_cons title e rest w :
  returned_ids (createAll ((title, e) :: rest) w).1 =
    returned_ids (createAll rest (createTask title e w).2).1 ∨
  returned_ids (createAll ((title, e) :: rest) w).1 =
    generateId (id_now e) (id_random e)
      :: returned_ids (createAll rest (createTask title e w).2).1.
Proof.
  rewrite createAll_cons. simpl.
  destruct (createTask_cases title e w) as [->|(s & -> & Hs)]; [by left|].
  right. rewrite createTask_ok by done. simpl. by rewrite deref_new.
Qed.

Lemma createAll_returned_elem reqs w i :
  i ∈ returned_ids (createAll reqs w).1 →
  ∃ r, r ∈ reqs ∧ i = generateId (id_now r.2) (id_random r.2).
Proof.
  revert w. induction reqs as [|[title e] rest IH]; intros w.
  - simpl. by intros ?%elem_of_nil.
  - destruct (createAll_returned_cons title e rest w) as [->| ->].
    + intros (r & ? & ?)%IH. exists r. split; [by apply list_elem_of_further|done].
    + intros [->|(r & ? & ?)%IH]%elem_of_cons.
      * exists (title, e). split; [apply list_elem_of_here|done].
      * exists r. split; [by apply list_elem_of_further|done].
Qed.

Lemma ids_run_create s e w :
  wf w → trim s ≠ [] →
  ids (run (CreateTask (JString s) e) w).2 =
    ids w ++ [generateId (id_now e) (id_random e)].
Proof.
  intros Hwf Hs. unfold ids, run.
  pose proof (snapshot_createTask s e w Hwf Hs) as H.
  destruct (createTask (JString s) e w) as [r w']; simpl in *.
  rewrite H, fmap_app. done.
Qed.

(** What the id format does guarantee.  The ids returned by [n]
    successive [createTask] calls are pairwise distinct whenever the pairs
    (timestamp, random suffix) that the calls draw are pairwise distinct,
    the suffix being a base-36 string; two calls in the same millisecond
    get different ids exactly when their suffixes differ.  Uniqueness of
    the ids of the live tasks is preserved by every call of the store, a
    [createTask] included provided the id it generates is not the id of a
    live task. *)
Lemma ids_distinct_when_draws_distinct :
  (∀ reqs w,
     Forall (λ r : jsval * create_env, hyphen ∉ id_random r.2) reqs →
     NoDup ((λ r : jsval * create_env, draw r.2) <$> reqs) →
     NoDup (returned_ids (createAll reqs w).1)) ∧
  (∀ now random now' random',
     hyphen ∉ random → hyphen ∉ random' →
     generateId now random = generateId now' random' →
     now = now' ∧ random = random') ∧
  (∀ c w,
     wf w → NoDup (ids w) →
     (∀ title e, c = CreateTask title e →
                 generateId (id_now e) (id_random e) ∉ ids w) →
     NoDup (ids (run c w).2)).
Proof.
  split; [|split; [apply generateId_inj|]].
  - intros reqs. induction reqs as [|[title e] rest IH]; intros w Hh Hd.
    + simpl. apply NoDup_nil_2.
    + apply Forall_cons in Hh as [He Hh]. simpl in Hd, He.
      apply NoDup_cons in Hd as [Hnew Hd].
      destruct (createAll_returned_cons title e rest w) as [->| ->];
        [by apply IH|].
      apply NoDup_cons. split; [|by apply IH].
      intros (r & Hr & Heq)%createAll_returned_elem.
      rewrite Forall_forall in Hh.
      apply generateId_inj in Heq as [Hn Hrand]; [|done|by apply Hh].
      apply Hnew. apply list_elem_of_fmap. exists r. split; [|done].
      unfold draw. by rewrite Hn, Hrand.
  - intros c w Hwf Hnd Hfresh.
    destruct c as [title e| |taskId|taskId status now|taskId|].
    + destruct (createTask_cases title e w) as [Ht|(s & -> & Hs)].
      * simpl. by rewrite Ht.
      * rewrite ids_run_create by done. apply NoDup_app.
        split; [done|]. split; [|apply NoDup_singleton].
        intros i Hi ->%list_elem_of_singleton. by eapply Hfresh.
    + unfold ids. simpl. by rewrite (snapshot_grow w).
    + done.
    + simpl. unfold updateTaskStatus.
      destruct (includes validStatuses status);
        [|by destruct (template_throws status)].
      destruct (find _ _) as [l|]; [|done]. simpl. by rewrite ids_store.
    + simpl. destruct (getTaskById taskId w) as [l|] eqn:Hl.
      * destruct (deleteTask_ok _ _ _ Hl) as (i & _ & _ & ->). simpl.
        unfold ids. destruct w as [h tk]; simpl.
        rewrite snapshot_delete, list_fmap_delete.
        eapply sublist_NoDup; [exact Hnd|apply sublist_delete].
      * by rewrite deleteTask_missing.
    + simpl. apply NoDup_nil_2.
Qed.

(** Two calls in the same millisecond that draw different suffixes get
    different ids. *)
Example same_millisecond_different_suffix :
  NoDup (returned_ids
           (createAll
              [(JString (lit "Buy groceries"),
                CreateEnv 1700000000000 (lit "k3j2h1g0f")
                          1700000000000 1700000000000);
               (JString (lit "Walk the dog"),
                CreateEnv 1700000000000 (lit "0zx81mq4c")
                          1700000000000 1700000000000)]
              empty_world).1).
Proof.
  apply ids_distinct_when_draws_distinct.
  - repeat constructor; apply (bool_decide_unpack _); vm_compute; exact I.
  - apply (bool_decide_unpack _). vm_compute. exact I.
Qed.

(** C8, where the code departs from it: [generateId] is documented to
    return a unique id, yet it only concatenates [Date.now()] with a
    random base-36 suffix and compares the result with nothing.  Two
    [createTask] calls in the same millisecond whose suffixes coincide
    return the same id: the ids of the live tasks were pairwise distinct
    before the second call and are not after it. *)
Theorem createTask_same_draw_same_id :
  returned_ids
    (createAll [(JString (lit "Buy groceries"), sample_env);
                (JString (lit "Walk the dog"), sample_env)] empty_world).1
    = [sample_id; sample_id] ∧
  NoDup (ids sample_world) ∧
  clash_world = (run (CreateTask (JString (lit "Walk the dog")) sample_env)
                     sample_world).2 ∧
  ¬ NoDup (ids clash_world).
Proof.
  split; [reflexivity|]. split; [|split; [reflexivity|]].
  - apply (bool_decide_unpack _). vm_compute. exact I.
  - intros H. apply NoDup_cons in H as [H _]. apply H.
    vm_compute. apply list_elem_of_here.
Qed.

(** ** What callers are handed *)

(** C1, where the code departs from it: [createTask], [getTaskById] and
    [updateTaskStatus] each return the stored task object itself, so an
    assignment to a field of the returned task changes what the store
    holds and what later reads return; only [getTasks] returns copies.
    Here the first task is created, looked up and updated, the caller
    assigns to the title of what each call returned, and the store's
    snapshot differs afterwards every time, while the same assignment to
    a task returned by [getTasks] leaves it as it was. *)
Theorem returned_task_is_the_stored_object :
  let changed := set_title (lit "changed by the caller") in
  ∃ l w1 w2 ls w3,
    createTask (JString (lit "Buy groceries")) sample_env empty_world
      = (Ok l, w1) ∧
    snapshot (assign l changed w1) ≠ snapshot w1 ∧
    getTaskById sample_id w1 = Some l ∧
    updateTaskStatus sample_id (JString (lit "completed")) 1700000000005 w1
      = (Ok l, w2) ∧
    snapshot (assign l changed w2) ≠ snapshot w2 ∧
    Task.title <$> snapshot (assign l changed w2)
      = [lit "changed by the caller"] ∧
    getTasks w2 = (ls, w3) ∧
    Forall (λ c, snapshot (assign c changed w3) = snapshot w2) ls.
Proof.
  eexists _, _, _, _, _. split; [reflexivity|].
  split; [vm_compute; discriminate|]. split; [reflexivity|].
  split; [reflexivity|]. split; [vm_compute; discriminate|].
  split; [reflexivity|]. split; [reflexivity|].
  repeat constructor.
Qed.

(** ** Titles longer than 200 characters *)

Lemma createTask_ignores_length s e w :
  (200 < length (trim s))%nat →
  valid (validateTaskTitle (JString s)) = false ∧
  createTask (JString s) e w =
    (Ok (length (heap w)), (createTask (JString s) e w).2) ∧
  getTaskCount (createTask (JString s) e w).2 = S (getTaskCount w).
Proof.
  intros Hlen.
  assert (Hs : trim s ≠ []) by (intros H; rewrite H in Hlen; simpl in Hlen; lia).
  split; [|rewrite createTask_ok by done; split; [done|]].
  - unfold validateTaskTitle. simpl.
    rewrite (bool_decide_eq_false_2 (s = [])) by by apply trim_nonempty.
    simpl. destruct (length (trim s)) as [|n] eqn:Hn; [lia|].
    change (S n =? 0)%nat with false. cbv iota.
    by rewrite (proj2 (Nat.ltb_lt 200 (S n)) Hlen).
  - unfold getTaskCount; simpl. rewrite length_app; simpl. lia.
Qed.

(** C2, where the code departs from it: [createTask] checks only that the
    title is a string that is not empty after trimming; the limit of 200
    characters is in [validateTaskTitle], which [createTask] does not
    call.  A title of 201 characters is rejected by [validateTaskTitle]
    and accepted by [createTask], which stores the task. *)
Theorem createTask_accepts_201_characters :
  let title := replicate 201 97%N in
  length (trim title) = 201%nat ∧
  validateTaskTitle (JString title) =
    Validation false (Some (lit "Task title must be 200 characters or less")) ∧
  ∃ l w',
    createTask (JString title) sample_env empty_world = (Ok l, w') ∧
    getTaskCount w' = 1%nat ∧
    Task.title (deref w' l) = title.
Proof.
  split; [reflexivity|]. split; [reflexivity|].
  eexists _, _. split; [reflexivity|]. split; reflexivity.
Qed.

(** ** Pagination *)

Lemma ceil_div_bounds a b :
  0 ≤ a → 0 < b →
  0 ≤ ceil_div a b ∧ (ceil_div a b - 1) * b < a ≤ ceil_div a b * b.
Proof.
  intros Ha Hb. unfold ceil_div.
  pose proof (Z.div_mod (a + b - 1) b) as Hd.
  pose proof (Z.mod_pos_bound (a + b - 1) b Hb) as Hm.
  assert (0 ≤ (a + b - 1) `div` b) by (apply Z.div_pos; lia).
  nia.
Qed.

Lemma ceil_div_zero b : 0 < b → ceil_div 0 b = 0.
Proof. intros Hb. unfold ceil_div. apply Z.div_small. lia. Qed.

Lemma ceil_div_pos a b : 0 < a → 0 < b → 0 < ceil_div a b.
Proof.
  intros Ha Hb.
  destruct (ceil_div_bounds a b) as (? & ? & ?); [lia..|]. nia.
Qed.

Lemma slice_lookup {A} (xs : list A) start size (k : nat) :
  0 ≤ start → 0 ≤ size →
  slice xs start (start + size) !! k =
    if decide (Z.of_nat k < size) then xs !! (Z.to_nat start + k)%nat
    else None.
Proof.
  intros Hs Hz. unfold slice.
  replace (start + size - start) with size by lia.
  rewrite lookup_take, lookup_drop.
  repeat case_decide; try done; lia.
Qed.

Lemma length_slice {A} (xs : list A) start size :
  0 ≤ start → 0 ≤ size →
  Z.of_nat (length (slice xs start (start + size))) =
    Z.max 0 (Z.min size (Z.of_nat (length xs) - start)).
Proof.
  intros Hs Hz. unfold slice.
  replace (start + size - start) with size by lia.
  rewrite length_take, length_drop. lia.
Qed.

(** C7: for every array, every integral page number and every page size
    [s > 0], [paginateTasks] reports the number of items and the number
    of pages (the least [T] with [n <= T * s]), clamps the requested page
    into [1 .. T] (to 1 when there are no items), returns the items of
    that page in their order, item [k] of the page being item
    [(page - 1) * s + k] of the input, and sets [hasNextPage] exactly
    when the page is before the last and [hasPrevPage] exactly when it is
    after the first.  The function builds its result from the argument
    and assigns to nothing.  With 4 items and page size 2: page 1 holds
    the first two items, with a next and no previous page; page 2 holds
    the last two, with a previous and no next page; page 999 is page 2. *)
Theorem paginateTasks_clamps_and_slices {A} (ts : list A) (p s : Z) :
  0 < s →
  let r := paginateTasks ts p s in
  let n := Z.of_nat (length ts) in
  totalItems r = n ∧
  pageSize r = s ∧
  (0 ≤ totalPages r ∧ (totalPages r - 1) * s < n ≤ totalPages r * s) ∧
  (n = 0 → totalPages r = 0 ∧ page r = 1 ∧ page_tasks r = []) ∧
  (0 < n → 1 ≤ page r ≤ totalPages r) ∧
  (1 ≤ p ≤ totalPages r → page r = p) ∧
  (p < 1 → page r = 1) ∧
  (0 < n → totalPages r < p → page r = totalPages r) ∧
  (∀ k : nat,
     page_tasks r !! k =
       if decide (Z.of_nat k < s)
       then ts !! (Z.to_nat ((page r - 1) * s) + k)%nat
       else None) ∧
  Z.of_nat (length (page_tasks r)) = Z.min s (n - (page r - 1) * s) ∧
  (hasNextPage r = true ↔ page r < totalPages r) ∧
  (hasPrevPage r = true ↔ 1 < page r) ∧
  (∀ xs : list A, length xs = 4%nat →
     page_tasks (paginateTasks xs 1 2) = take 2 xs ∧
     hasNextPage (paginateTasks xs 1 2) = true ∧
     hasPrevPage (paginateTasks xs 1 2) = false ∧
     page_tasks (paginateTasks xs 2 2) = drop 2 xs ∧
     hasNextPage (paginateTasks xs 2 2) = false ∧
     hasPrevPage (paginateTasks xs 2 2) = true ∧
     paginateTasks xs 999 2 = paginateTasks xs 2 2 ∧
     page (paginateTasks xs 999 2) = 2).
Proof.
  intros Hs r n.
  assert (Hn : 0 ≤ n) by (unfold n; lia).
  destruct (ceil_div_bounds n s Hn Hs) as (HT0 & HTl & HTu).
  set (T := ceil_div n s) in *.
  assert (HT : totalPages r = T) by done.
  assert (Hpage : page r = Z.max 1 (Z.min p (if T =? 0 then 1 else T))) by done.
  assert (Hn0 : n = 0 → T = 0) by (intros ->; by apply ceil_div_zero).
  assert (HnT : 0 < n → 0 < T) by (intros ?; by apply ceil_div_pos).
  assert (Hp1 : 1 ≤ page r) by lia.
  assert (Htasks : page_tasks r
                   = slice ts ((page r - 1) * s) ((page r - 1) * s + s)) by done.
  rewrite HT.
  split; [done|]. split; [done|]. split; [done|]. split.
  { intros Hz. specialize (Hn0 Hz). split; [done|].
    assert (page r = 1) as Hp by (rewrite Hpage, Hn0; simpl; lia).
    split; [done|]. rewrite Htasks, Hp.
    apply length_zero_iff_nil. unfold n in Hz.
    unfold slice. rewrite length_take, length_drop. lia. }
  split.
  { intros Hpos. specialize (HnT Hpos). rewrite Hpage.
    destruct (Z.eqb_spec T 0); lia. }
  split.
  { intros Hp. rewrite Hpage. destruct (Z.eqb_spec T 0); lia. }
  split.
  { intros Hp. rewrite Hpage. destruct (Z.eqb_spec T 0); lia. }
  split.
  { intros Hpos Hp. specialize (HnT Hpos). rewrite Hpage.
    destruct (Z.eqb_spec T 0); lia. }
  split.
  { intros k. rewrite Htasks. apply slice_lookup; nia. }
  split.
  { rewrite Htasks, length_slice by nia. fold n.
    destruct (decide (n = 0)) as [Hz|Hz].
    - assert (page r = 1) as -> by (rewrite Hpage, (Hn0 Hz); simpl; lia). lia.
    - assert (page r ≤ T)
        by (rewrite Hpage; destruct (Z.eqb_spec T 0); lia).
      nia. }
  split.
  { change (hasNextPage r) with (page r <? T). apply Z.ltb_lt. }
  split.
  { change (hasPrevPage r) with (1 <? page r). apply Z.ltb_lt. }
  intros xs Hxs.
  destruct xs as [|a [|b [|c [|d [|? ?]]]]]; simplify_eq/=. done.
Qed.

Lemma paginateTasks_clamps_and_slices_witness :
  let r := paginateTasks [lit "a"; lit "b"; lit "c"; lit "d"; lit "e"] 7 2 in
  totalItems r = 5 ∧ pageSize r = 2 ∧ page r = totalPages r ∧
  (hasNextPage r = true ↔ page r < totalPages r).
Proof.
  assert (H : 0 < 2) by lia.
  destruct (paginateTasks_clamps_and_slices
              [lit "a"; lit "b"; lit "c"; lit "d"; lit "e"] 7 2 H)
    as (Hitems & Hsize & _ & _ & _ & _ & _ & Hclamp & _ & _ & Hnext & _).
  split; [exact Hitems|]. split; [exact Hsize|]. split; [|exact Hnext].
  apply Hclamp; reflexivity.
Defined.

(** ** Statistics *)

Lemma length_filter_fmap {A B} (f : A → B) (p : B → bool) (xs : list A) :
  length (filter (λ x, p (f x)) xs) = length (filter p (f <$> xs)).
Proof.
  induction xs as [|x xs IH]; simpl; [done|].
  rewrite !filter_cons. destruct (p (f x)); simpl; by rewrite IH.
Qed.

Lemma getCompletedTaskCount_snapshot w :
  getCompletedTaskCount w =
    length (filter (λ t, strict_eq (Task.status t) (lit "completed"))
                   (snapshot w)).
Proof.
  unfold getCompletedTaskCount, snapshot.
  apply (length_filter_fmap (deref w)
           (λ t, strict_eq (Task.status t) (lit "completed"))).
Qed.

Lemma getCompletedTaskCount_le w : (getCompletedTaskCount w ≤ getTaskCount w)%nat.
Proof. apply length_filter. Qed.


Lemma allowed_statuses_forallb (ts : list Task.t) :
  forallb (λ t, includes validStatuses (Task.status t)) ts = true →
  Forall (λ t, Task.status t = JString (lit "pending")
               ∨ Task.status t = JString (lit "completed")) ts.
Proof.
  intros H. rewrite forallb_forall in H. apply Forall_forall. intros t Ht.
  by apply includes_validStatuses, H, list_elem_of_In.
Qed.

(** Every call of the store keeps the statuses within the two allowed
    values. *)
Lemma allowed_statuses_run c w :
  wf w →
  Forall (λ t, Task.status t = JString (lit "pending")
               ∨ Task.status t = JString (lit "completed")) (snapshot w) →
  Forall (λ t, Task.status t = JString (lit "pending")
               ∨ Task.status t = JString (lit "completed"))
         (snapshot (run c w).2).
Proof.
  intros Hwf Hall.
  destruct c as [title e| |taskId|taskId status now|taskId|]; simpl.
  - destruct (createTask_cases title e w) as [Ht|(s & -> & Hs)].
    + by rewrite Ht.
    + pose proof (snapshot_createTask s e w Hwf Hs) as H.
      destruct (createTask (JString s) e w) as [r w']; simpl in *.
      rewrite H. apply Forall_app. split; [done|].
      apply Forall_singleton. by left.
  - by rewrite (snapshot_grow w).
  - done.
  - destruct (includes validStatuses status) eqn:Hi;
      [|by rewrite updateTaskStatus_invalid].
    destruct (getTaskById taskId w) as [l|] eqn:Hl;
      [|by rewrite updateTaskStatus_missing].
    destruct (getTaskById_Some _ _ _ Hl) as [_ [i Hti]].
    destruct (updateTaskStatus_spec taskId status now w l i Hwf Hl Hti Hi)
      as (w' & -> & _ & Hs & _). simpl. rewrite Hs.
    apply Forall_insert; [done|]. simpl. by apply includes_validStatuses.
  - destruct (getTaskById taskId w) as [l|] eqn:Hl;
      [|by rewrite deleteTask_missing].
    destruct (deleteTask_ok _ _ _ Hl) as (i & _ & _ & ->). simpl.
    destruct w as [h tk]. rewrite snapshot_delete. by apply Forall_delete.
  - constructor.
Qed.






(** * Further properties of the store *)

(** ** Lookups *)

Lemma find_app {A} (p : A → bool) (xs ys : list A) :
  find p (xs ++ ys) =
    match find p xs with Some x => Some x | None => find p ys end.
Proof.
  induction xs as [|x xs IH]; simpl; [done|]. by destruct (p x).
Qed.

Lemma ids_lookup w i l :
  tasks w !! i = Some l → ids w !! i = Some (Task.id (deref w l)).
Proof.
  intros H. unfold ids, snapshot. by rewrite !list_lookup_fmap, H.
Qed.

Lemma getTaskById_None taskId w :
  getTaskById taskId w = None ↔ taskId ∉ ids w.
Proof.
  unfold getTaskById. split.
  - intros H Hin. apply list_elem_of_lookup_1 in Hin as [i Hi].
    unfold ids, snapshot in Hi. rewrite !list_lookup_fmap in Hi.
    destruct (tasks w !! i) as [l|] eqn:Hl; [|done]. simpl in Hi.
    injection Hi as Hi.
    pose proof (find_None_elem _ _ l H (list_elem_of_lookup_2 _ _ _ Hl)) as Hp.
    unfold has_id in Hp. by apply bool_decide_eq_false in Hp.
  - intros Hnin. apply find_None_intro. intros l Hl.
    apply bool_decide_eq_false. intros Hid. apply Hnin.
    apply list_elem_of_lookup_1 in Hl as [i Hi].
    apply (list_elem_of_lookup_2 _ i). by rewrite (ids_lookup w i l), Hid.
Qed.

Lemma getTaskById_first taskId w l :
  getTaskById taskId w = Some l →
  ∃ i, tasks w !! i = Some l ∧ ids w !! i = Some taskId ∧
       ∀ j, (j < i)%nat → ids w !! j ≠ Some taskId.
Proof.
  intros H. destruct (getTaskById_Some _ _ _ H) as [Hid _].
  destruct (find_Some_findIndex _ _ _ H) as (i & Hfi & Hi).
  exists i. split; [done|]. split; [by rewrite (ids_lookup w i l), Hid|].
  intros j Hj Hjid.
  destruct (tasks w !! j) as [l'|] eqn:Hl'.
  - rewrite (ids_lookup w j l') in Hjid by done. injection Hjid as Hjid.
    pose proof (findIndex_first _ _ _ _ _ Hfi Hj Hl') as Hp.
    unfold has_id in Hp. by apply bool_decide_eq_false in Hp.
  - unfold ids, snapshot in Hjid. by rewrite !list_lookup_fmap, Hl' in Hjid.
Qed.

(** X1: [getTaskById] returns [null] exactly when no live task carries the
    id; otherwise it returns a task of the collection that carries the
    id, and the first such task in collection order. *)
Theorem getTaskById_finds_first_live_task taskId w :
  (getTaskById taskId w = None ↔ taskId ∉ ids w) ∧
  (∀ l, getTaskById taskId w = Some l →
        Task.id (deref w l) = taskId ∧
        ∃ i, tasks w !! i = Some l ∧ ids w !! i = Some taskId ∧
             ∀ j, (j < i)%nat → ids w !! j ≠ Some taskId).
Proof.
  split; [apply getTaskById_None|].
  intros l H. split; [by apply getTaskById_Some in H as [? _]|].
  by apply getTaskById_first.
Qed.

Lemma getTaskById_finds_first_live_task_witness :
  Task.id (deref clash_world 0%nat) = sample_id ∧
  ∃ i, tasks clash_world !! i = Some 0%nat ∧
       ids clash_world !! i = Some sample_id ∧
       ∀ j, (j < i)%nat → ids clash_world !! j ≠ Some sample_id.
Proof.
  apply (proj2 (getTaskById_finds_first_live_task sample_id clash_world)).
  vm_compute. reflexivity.
Defined.

(** ** What [getTasks] returns *)

Lemma deref_copies w i :
  (i < length (tasks w))%nat →
  deref (getTasks w).2 (length (heap w) + i)%nat = deref w (tasks w !!! i).
Proof.
  intros Hi. unfold deref, getTasks; simpl.
  rewrite lookup_total_app_r by lia.
  replace (length (heap w) + i - length (heap w))%nat with i by lia.
  unfold snapshot.
  by rewrite (list_lookup_total_fmap (deref w) (tasks w) i) by done.
Qed.

Lemma getTasks_contents w :
  deref (getTasks w).2 <$> (getTasks w).1 = snapshot w.
Proof.
  apply list_eq. intros i. rewrite list_lookup_fmap.
  change (getTasks w).1 with (seq (length (heap w)) (length (snapshot w))).
  rewrite length_snapshot. unfold getTaskCount, snapshot at 1.
  rewrite list_lookup_fmap.
  destruct (decide (i < length (tasks w))%nat) as [Hi|Hi].
  - rewrite lookup_seq_lt by done.
    rewrite (list_lookup_lookup_total_lt (tasks w) i) by done.
    change (Some (deref (getTasks w).2 (length (heap w) + i)%nat)
            = Some (deref w (tasks w !!! i))).
    f_equal. by apply deref_copies.
  - rewrite lookup_seq_ge by lia. by rewrite lookup_ge_None_2 by lia.
Qed.

(** X2: [getTasks] returns one fresh object per live task, in collection
    order and with the fields of the stored task, and leaves the store as
    it was; no assignment to a returned object changes what the store
    holds. *)
Theorem getTasks_returns_independent_copies w :
  wf w →
  deref (getTasks w).2 <$> (getTasks w).1 = snapshot w ∧
  length (getTasks w).1 = getTaskCount w ∧
  snapshot (getTasks w).2 = snapshot w ∧
  tasks (getTasks w).2 = tasks w ∧
  (∀ l, l ∈ (getTasks w).1 → l ∉ tasks w) ∧
  (∀ l f, l ∈ (getTasks w).1 →
          snapshot (assign l f (getTasks w).2) = snapshot w).
Proof.
  intros Hwf. split; [apply getTasks_contents|].
  split; [simpl; by rewrite length_seq, length_snapshot|].
  split; [by apply snapshot_getTasks|]. split; [done|]. split.
  - intros l Hl Hl'. simpl in Hl. apply elem_of_seq in Hl.
    apply (wf_bound w l Hwf) in Hl'. lia.
  - intros l f Hl. by apply getTasks_copies_are_independent.
Qed.

Lemma getTasks_returns_independent_copies_witness :
  length (getTasks clash_world).1 = 2%nat ∧
  snapshot (assign 2%nat (set_title (lit "changed by the caller"))
                   (getTasks clash_world).2) = snapshot clash_world.
Proof.
  destruct (getTasks_returns_independent_copies clash_world
              (reachable_wf _ reachable_clash_world))
    as (_ & Hlen & _ & _ & _ & Hind).
  split; [exact Hlen|]. apply Hind. vm_compute.
  apply list_elem_of_here.
Defined.

(** ** How the operations compose with lookups *)

Lemma getTaskById_after_create s e w taskId :
  wf w → trim s ≠ [] →
  getTaskById taskId (createTask (JString s) e w).2 =
    match getTaskById taskId w with
    | Some l => Some l
    | None =>
        if decide (generateId (id_now e) (id_random e) = taskId)
        then Some (length (heap w)) else None
    end.
Proof.
  intros Hwf Hs. rewrite createTask_ok by done.
  unfold getTaskById; simpl. rewrite find_app.
  rewrite (has_id_agree w) by
    (intros l Hl; destruct w as [h tk]; simpl in *; f_equal;
     apply deref_grow; by apply (wf_bound (World h tk))).
  destruct (find _ _); [done|]. simpl. unfold has_id at 1.
  rewrite deref_new; simpl. case_decide.
  - by rewrite bool_decide_eq_true_2.
  - by rewrite bool_decide_eq_false_2.
Qed.

(** X3: after a successful [createTask], looking up the generated id
    finds a task with that id, the new task itself when no live task
    carried the id before; every lookup that found a task before the call
    finds the same task after it, and an id other than the generated one
    that was not found before is not found after. *)
Theorem createTask_then_getTaskById s e w :
  wf w → trim s ≠ [] →
  let w' := (createTask (JString s) e w).2 in
  let new_id := generateId (id_now e) (id_random e) in
  (∃ l, getTaskById new_id w' = Some l ∧ Task.id (deref w' l) = new_id) ∧
  (new_id ∉ ids w →
   getTaskById new_id w' = Some (length (heap w)) ∧
   (createTask (JString s) e w).1 = Ok (length (heap w))) ∧
  (∀ taskId l, getTaskById taskId w = Some l →
               getTaskById taskId w' = Some l ∧ deref w' l = deref w l) ∧
  (∀ taskId, taskId ≠ new_id → getTaskById taskId w = None →
             getTaskById taskId w' = None).
Proof.
  intros Hwf Hs w' new_id.
  assert (Hlook := λ taskId, getTaskById_after_create s e w taskId Hwf Hs).
  fold w' in Hlook. split; [|split; [|split]].
  - specialize (Hlook new_id). fold new_id in Hlook.
    rewrite decide_True in Hlook by done.
    destruct (getTaskById new_id w) as [l|]; eexists; (split; [done|]);
      by apply getTaskById_Some in Hlook as [? _].
  - intros Hnew. apply getTaskById_None in Hnew.
    specialize (Hlook new_id). rewrite Hnew in Hlook. fold new_id in Hlook.
    rewrite decide_True in Hlook by done. split; [done|].
    by rewrite createTask_ok.
  - intros taskId l Hl. specialize (Hlook taskId). rewrite Hl in Hlook.
    split; [done|]. unfold w'. rewrite createTask_ok by done.
    destruct w as [h tk]. apply deref_grow.
    apply (wf_bound (World h tk)); [done|].
    by apply getTaskById_returns_stored_reference in Hl.
  - intros taskId Hne Hnone. specialize (Hlook taskId).
    rewrite Hnone in Hlook. fold new_id in Hlook.
    by rewrite decide_False in Hlook by done.
Qed.

Lemma createTask_then_getTaskById_witness :
  let e := CreateEnv 1700000000001 (lit "0zx81mq4c")
                     1700000000001 1700000000001 in
  let w' := (createTask (JString (lit "Walk the dog")) e sample_world).2 in
  getTaskById (generateId 1700000000001 (lit "0zx81mq4c")) w' = Some 1%nat ∧
  getTaskById sample_id w' = Some 0%nat.
Proof.
  intros e w'.
  destruct (createTask_then_getTaskById (lit "Walk the dog") e sample_world)
    as (_ & Hnew & Hold & _).
  - exact wf_sample_world.
  - vm_compute. discriminate.
  - split.
    + apply Hnew. apply getTaskById_None. vm_compute. reflexivity.
    + apply (Hold sample_id 0%nat). vm_compute. reflexivity.
Defined.

Lemma find_delete {A} (p : A → bool) (xs : list A) i x :
  xs !! i = Some x → p x = false → find p (delete i xs) = find p xs.
Proof.
  revert i. induction xs as [|y r IH]; intros [|i] Hi Hp; simpl in *;
    try done.
  - injection Hi as ->. by rewrite Hp.
  - destruct (p y); [done|]. by apply IH.
Qed.

(** X4: [updateTaskStatus], whether it succeeds or throws, changes no
    lookup, no id, no title, no [createdAt] and not the order or number
    of the tasks; when it succeeds, every task object other than the one
    it returns keeps all its fields. *)
Theorem updateTaskStatus_changes_one_task_only taskId status now w :
  let w' := (updateTaskStatus taskId status now w).2 in
  tasks w' = tasks w ∧
  ids w' = ids w ∧
  Task.title <$> snapshot w' = Task.title <$> snapshot w ∧
  Task.createdAt <$> snapshot w' = Task.createdAt <$> snapshot w ∧
  (∀ taskId', getTaskById taskId' w' = getTaskById taskId' w) ∧
  (∀ l l', (updateTaskStatus taskId status now w).1 = Ok l → l' ≠ l →
           deref w' l' = deref w l').
Proof.
  intros w'. unfold w', updateTaskStatus.
  destruct (includes validStatuses status);
    [|destruct (template_throws status); repeat split; try done; by intros].
  destruct (find (has_id w taskId) (tasks w)) as [l|] eqn:Hl;
    [|repeat split; try done; by intros].
  simpl. destruct w as [h tk]; simpl in *.
  assert (Hfield : ∀ {B} (f : Task.t → B),
            f (Task.mk (Task.id (deref (World h tk) l))
                       (Task.title (deref (World h tk) l)) status
                       (Task.createdAt (deref (World h tk) l)) now)
              = f (deref (World h tk) l) →
            f <$> snapshot (World (<[l := Task.mk
                       (Task.id (deref (World h tk) l))
                       (Task.title (deref (World h tk) l)) status
                       (Task.createdAt (deref (World h tk) l)) now]> h) tk)
              = f <$> snapshot (World h tk)).
  { intros B f Hf. unfold snapshot; simpl. rewrite <- !list_fmap_compose.
    apply list_fmap_ext. intros j l' _. simpl.
    rewrite (deref_store h tk tk). case_decide as H; [|done].
    by destruct H as [<- _]. }
  split; [done|]. split; [by apply (Hfield _ Task.id)|].
  split; [by apply (Hfield _ Task.title)|].
  split; [by apply (Hfield _ Task.createdAt)|]. split.
  - intros taskId'. unfold getTaskById; simpl. apply has_id_agree.
    intros l' _. rewrite (deref_store h tk tk).
    case_decide as H; [|done]. by destruct H as [<- _].
  - intros l0 l' [= <-] Hne. rewrite (deref_store h tk tk).
    case_decide as H; [|done]. by destruct H as [<- _].
Qed.

(** X5: [deleteTask], whether it succeeds or throws, leaves every task
    object as it is and changes no lookup of another id; when it
    succeeds, the ids of the live tasks are those before the call with
    one occurrence of the deleted id removed, in the same order. *)
Theorem deleteTask_leaves_other_tasks taskId w :
  let w' := (deleteTask taskId w).2 in
  heap w' = heap w ∧
  (∀ taskId', taskId' ≠ taskId →
              getTaskById taskId' w' = getTaskById taskId' w) ∧
  (∀ l, (deleteTask taskId w).1 = Ok l →
        ∃ index, ids w !! index = Some taskId ∧
                 ids w' = delete index (ids w) ∧
                 snapshot w' = delete index (snapshot w)).
Proof.
  intros w'. unfold w'.
  destruct (getTaskById taskId w) as [l|] eqn:Hl.
  - destruct (deleteTask_ok _ _ _ Hl) as (i & _ & Hi & ->). simpl.
    destruct (getTaskById_Some _ _ _ Hl) as [Hid _].
    split; [done|]. split.
    + intros taskId' Hne. unfold getTaskById; simpl.
      change (has_id (World (heap w) (delete i (tasks w))) taskId')
        with (has_id w taskId').
      apply (find_delete _ _ i l); [done|].
      apply bool_decide_eq_false. congruence.
    + intros _ _. exists i. split; [by rewrite (ids_lookup w i l), Hid|].
      destruct w as [h tk]; simpl.
      split; [unfold ids; by rewrite snapshot_delete, list_fmap_delete|].
      apply snapshot_delete.
  - rewrite deleteTask_missing by done. simpl. split; [done|].
    split; [done|]. intros l [=].
Qed.

Lemma updateTaskStatus_changes_one_task_only_witness :
  let w' := (updateTaskStatus sample_id (JString (lit "completed"))
                              1700000000005 clash_world).2 in
  getTaskById sample_id w' = getTaskById sample_id clash_world ∧
  deref w' 1%nat = deref clash_world 1%nat.
Proof.
  intros w'.
  destruct (updateTaskStatus_changes_one_task_only
              sample_id (JString (lit "completed")) 1700000000005 clash_world)
    as (_ & _ & _ & _ & Hlook & Hother).
  split; [apply Hlook|]. apply (Hother 0%nat 1%nat); [reflexivity|lia].
Defined.

Lemma deleteTask_leaves_other_tasks_witness :
  let w' := (deleteTask sample_id clash_world).2 in
  getTaskById (lit "task-0-missing") w'
    = getTaskById (lit "task-0-missing") clash_world ∧
  ∃ index, ids clash_world !! index = Some sample_id ∧
           ids w' = delete index (ids clash_world) ∧
           snapshot w' = delete index (snapshot clash_world).
Proof.
  intros w'.
  destruct (deleteTask_leaves_other_tasks sample_id clash_world)
    as (_ & Hlook & Hids).
  split.
  - apply Hlook. vm_compute. discriminate.
  - apply (Hids 0%nat). reflexivity.
Defined.

(** ** Counting *)

Lemma length_filter_insert {A} (P : A → Prop) `{!∀ x, Decision (P x)}
    (xs : list A) i x y :
  xs !! i = Some y →
  (length (filter P (<[i := x]> xs)) + (if decide (P y) then 1 else 0)
   = length (filter P xs) + (if decide (P x) then 1 else 0))%nat.
Proof.
  revert i. induction xs as [|z r IH]; intros [|i] Hi; simpl in *; try done.
  - injection Hi as ->. rewrite !filter_cons.
    repeat case_decide; simpl; lia.
  - rewrite !filter_cons. specialize (IH i Hi).
    destruct (decide (P z)); simpl; lia.
Qed.

(** X6: a successful [updateTaskStatus] leaves [getTaskCount] as it is
    and moves [getCompletedTaskCount] by what the one task contributes:
    the count after the call, plus one if the task was completed before,
    is the count before, plus one if the new status is ["completed"].
    The completed count never exceeds the task count. *)
Theorem updateTaskStatus_moves_completed_count taskId status now w l :
  wf w → getTaskById taskId w = Some l →
  includes validStatuses status = true →
  let w' := (updateTaskStatus taskId status now w).2 in
  getTaskCount w' = getTaskCount w ∧
  (getCompletedTaskCount w'
   + (if strict_eq (Task.status (deref w l)) (lit "completed") then 1 else 0)
   = getCompletedTaskCount w
     + (if strict_eq status (lit "completed") then 1 else 0))%nat ∧
  (getCompletedTaskCount w' ≤ getTaskCount w')%nat.
Proof.
  intros Hwf Hl Hs w'.
  destruct (getTaskById_Some _ _ _ Hl) as [_ [i Hi]].
  destruct (updateTaskStatus_spec taskId status now w l i Hwf Hl Hi Hs)
    as (w1 & Hu & _ & Hsnap & _ & _ & Htk).
  unfold w'. rewrite Hu. simpl.
  split; [unfold getTaskCount; by rewrite Htk|].
  split; [|apply getCompletedTaskCount_le].
  rewrite !getCompletedTaskCount_snapshot, Hsnap.
  pose proof (length_filter_insert
                (λ t, strict_eq (Task.status t) (lit "completed"))
                (snapshot w) i
                (Task.mk (Task.id (deref w l)) (Task.title (deref w l)) status
                         (Task.createdAt (deref w l)) now)
                (deref w l)) as H.
  unfold snapshot at 1 in H. rewrite list_lookup_fmap, Hi in H.
  specialize (H eq_refl). simpl in H.
  destruct (strict_eq (Task.status (deref w l)) (lit "completed"));
    destruct (strict_eq status (lit "completed")); simpl in *; lia.
Qed.

Lemma updateTaskStatus_moves_completed_count_witness :
  let w' := (updateTaskStatus sample_id (JString (lit "completed"))
                              1700000000005 clash_world).2 in
  getTaskCount w' = 2%nat ∧
  (getCompletedTaskCount w' + 0 = getCompletedTaskCount clash_world + 1)%nat.
Proof.
  intros w'.
  destruct (updateTaskStatus_moves_completed_count
              sample_id (JString (lit "completed")) 1700000000005
              clash_world 0%nat)
    as (Hcount & Hcompleted & _).
  - exact (reachable_wf _ reachable_clash_world).
  - reflexivity.
  - reflexivity.
  - split; [exact Hcount|exact Hcompleted].
Defined.

(** X7: [clearTasks] empties the store whatever it held: both counts are
    0, [getTasks] returns an empty array, no id is found, and
    [updateTaskStatus] and [deleteTask] throw the not-found error for
    every id; the task objects handed out before keep their fields. *)
Theorem clearTasks_empties_store w :
  getTaskCount (clearTasks w) = 0%nat ∧
  getCompletedTaskCount (clearTasks w) = 0%nat ∧
  (getTasks (clearTasks w)).1 = [] ∧
  snapshot (clearTasks w) = [] ∧
  (∀ l, deref (clearTasks w) l = deref w l) ∧
  (∀ taskId, getTaskById taskId (clearTasks w) = None) ∧
  (∀ taskId now,
     updateTaskStatus taskId (JString (lit "completed")) now (clearTasks w)
       = (Throw (not_found_error taskId), clearTasks w)) ∧
  (∀ taskId,
     deleteTask taskId (clearTasks w)
       = (Throw (not_found_error taskId), clearTasks w)).
Proof. repeat split. Qed.

(** ** Invariants of the store *)

Lemma ids_after_run c w i :
  wf w → i ∈ ids (run c w).2 →
  i ∈ ids w ∨ ∃ title e, c = CreateTask title e
                         ∧ i = generateId (id_now e) (id_random e).
Proof.
  intros Hwf. destruct c as [title e| |taskId|taskId status now|taskId|].
  - destruct (createTask_cases title e w) as [Ht|(s & -> & Hs)].
    + simpl. rewrite Ht. by left.
    + rewrite ids_run_create by done.
      intros [?|Hi%list_elem_of_singleton]%elem_of_app; [by left|].
      right. eauto.
  - unfold ids. simpl. rewrite (snapshot_grow w) by done. by left.
  - by left.
  - simpl. unfold updateTaskStatus.
    destruct (includes validStatuses status);
      [|destruct (template_throws status); by left].
    destruct (find _ _) as [l|]; [|by left]. simpl.
    rewrite ids_store by done. by left.
  - simpl. destruct (getTaskById taskId w) as [l|] eqn:Hl.
    + destruct (deleteTask_ok _ _ _ Hl) as (index & _ & _ & ->). simpl.
      unfold ids. destruct w as [h tk]; simpl.
      rewrite snapshot_delete, list_fmap_delete.
      intros ?%list_elem_of_delete_inv. by left.
    + rewrite deleteTask_missing by done. by left.
  - simpl. by intros ?%elem_of_nil.
Qed.

(** ** Trimming *)

Lemma trimStart_split s :
  ∃ ws, s = ws ++ trimStart s ∧ Forall (λ c, is_ws c = true) ws.
Proof.
  induction s as [|c r (ws & Hr & Hws)]; simpl.
  - by exists [].
  - destruct (is_ws c) eqn:Hc.
    + exists (c :: ws). split; [simpl; by f_equal|by constructor].
    + by exists [].
Qed.

Lemma trimStart_head s c r : trimStart s = c :: r → is_ws c = false.
Proof.
  induction s as [|d s IH]; simpl; [done|].
  destruct (is_ws d) eqn:Hd; [done|]. by intros [= <- _].
Qed.

Lemma trimStart_fixed c r : is_ws c = false → trimStart (c :: r) = c :: r.
Proof. intros H. simpl. by rewrite H. Qed.

Lemma trimStart_idemp s : trimStart (trimStart s) = trimStart s.
Proof.
  destruct (trimStart s) as [|c r] eqn:H; [done|].
  by apply trimStart_fixed, (trimStart_head s c r).
Qed.

Lemma trimEnd_idemp s : trimEnd (trimEnd s) = trimEnd s.
Proof. unfold trimEnd. by rewrite rev_involutive, trimStart_idemp. Qed.

Lemma trimEnd_split s :
  ∃ ws, s = trimEnd s ++ ws ∧ Forall (λ c, is_ws c = true) ws.
Proof.
  destruct (trimStart_split (rev s)) as (ws & Hs & Hws).
  exists (rev ws). split.
  - unfold trimEnd. rewrite <- rev_app_distr, <- Hs. by rewrite rev_involutive.
  - apply Forall_forall. intros c Hc. rewrite Forall_forall in Hws.
    apply Hws. by apply list_elem_of_In, in_rev, list_elem_of_In.
Qed.

Lemma trimStart_trimEnd s c r :
  s = c :: r → is_ws c = false → trimStart (trimEnd s) = trimEnd s.
Proof.
  intros -> Hc. destruct (trimEnd_split (c :: r)) as (ws & Hs & _).
  destruct (trimEnd (c :: r)) as [|d t] eqn:Ht; [done|].
  simpl in Hs. injection Hs as <- _. by apply trimStart_fixed.
Qed.

Lemma trim_idemp s : trim (trim s) = trim s.
Proof.
  unfold trim. destruct (trimStart s) as [|c r] eqn:Hs; [done|].
  rewrite (trimStart_trimEnd (c :: r) c r eq_refl)
    by by apply (trimStart_head s c r).
  apply trimEnd_idemp.
Qed.

Lemma trim_sublist s : trim s `sublist_of` s.
Proof.
  unfold trim. destruct (trimStart_split s) as (ws & Hs & _).
  destruct (trimEnd_split (trimStart s)) as (ws' & Hs' & _).
  rewrite Hs at 2. rewrite Hs' at 2.
  apply sublist_inserts_l, sublist_inserts_r. done.
Qed.

Lemma trim_clean c r d :
  is_ws c = false → is_ws d = false → trim (c :: r ++ [d]) = c :: r ++ [d].
Proof.
  intros Hc Hd. unfold trim. rewrite trimStart_fixed by done.
  unfold trimEnd.
  assert (Hrev : rev (c :: r ++ [d]) = d :: rev (c :: r)).
  { change (c :: r ++ [d]) with ((c :: r) ++ [d]). by rewrite rev_app_distr. }
  rewrite Hrev, trimStart_fixed by done.
  by rewrite <- Hrev, rev_involutive.
Qed.

(** ** What the store keeps true of its tasks *)

Lemma validateTaskId_generateId now random :
  validateTaskId (JString (generateId now random)) = Validation true None.
Proof.
  assert (H : generateId now random
              = 116%N :: 97%N :: 115%N :: 107%N :: 45%N
                  :: (number_to_string now ++ lit "-" ++ random)) by done.
  rewrite H. reflexivity.
Qed.

Lemma task_ok_new s e :
  trim s ≠ [] →
  task_ok (Task.mk (generateId (id_now e) (id_random e)) (trim s)
                   (JString (lit "pending")) (created_now e) (updated_now e)).
Proof.
  intros Hs. split; [by left|]. split; [|split].
  - simpl. rewrite trim_idemp. apply Nat.ltb_lt.
    destruct (trim s); [done|simpl; lia].
  - apply trim_idemp.
  - change (valid (validateTaskId
                     (JString (generateId (id_now e) (id_random e)))) = true).
    by rewrite validateTaskId_generateId.
Qed.

Lemma task_ok_run c w :
  wf w → Forall task_ok (snapshot w) → Forall task_ok (snapshot (run c w).2).
Proof.
  intros Hwf Hall.
  destruct c as [title e| |taskId|taskId status now|taskId|]; simpl.
  - destruct (createTask_cases title e w) as [Ht|(s & -> & Hs)].
    + by rewrite Ht.
    + pose proof (snapshot_createTask s e w Hwf Hs) as H.
      destruct (createTask (JString s) e w) as [r w']; simpl in *.
      rewrite H. apply Forall_app. split; [done|].
      apply Forall_singleton. by apply task_ok_new.
  - by rewrite (snapshot_grow w).
  - done.
  - destruct (includes validStatuses status) eqn:Hi;
      [|by rewrite updateTaskStatus_invalid].
    destruct (getTaskById taskId w) as [l|] eqn:Hl;
      [|by rewrite updateTaskStatus_missing].
    destruct (getTaskById_Some _ _ _ Hl) as [_ [i Hti]].
    destruct (updateTaskStatus_spec taskId status now w l i Hwf Hl Hti Hi)
      as (w' & -> & _ & Hs & _). simpl. rewrite Hs.
    apply Forall_insert; [done|].
    assert (Hold : task_ok (deref w l)).
    { rewrite Forall_forall in Hall. apply Hall.
      apply (list_elem_of_lookup_2 _ i). unfold snapshot.
      by rewrite list_lookup_fmap, Hti. }
    destruct Hold as (_ & ? & ? & ?).
    split; [by apply includes_validStatuses|done].
  - destruct (getTaskById taskId w) as [l|] eqn:Hl;
      [|by rewrite deleteTask_missing].
    destruct (deleteTask_ok _ _ _ Hl) as (i & _ & _ & ->). simpl.
    destruct w as [h tk]. rewrite snapshot_delete. by apply Forall_delete.
  - constructor.
Qed.

Lemma task_ok_run_all cs w :
  wf w → Forall task_ok (snapshot w) →
  wf (run_all cs w) ∧ Forall task_ok (snapshot (run_all cs w)).
Proof.
  revert w. induction cs as [|c cs IH]; intros w Hwf Hall; simpl; [done|].
  apply IH; [by apply wf_run|by apply task_ok_run].
Qed.

(** X8: whatever calls the store has served since it was empty, every
    task it holds has status ["pending"] or ["completed"], a title that
    [isNonEmptyString] accepts and that trimming leaves as it is, and an
    id that [validateTaskId] accepts. *)
Theorem store_keeps_tasks_well_formed cs :
  Forall (λ t,
            (Task.status t = JString (lit "pending")
             ∨ Task.status t = JString (lit "completed")) ∧
            isNonEmptyString (JString (Task.title t)) = true ∧
            trim (Task.title t) = Task.title t ∧
            valid (validateTaskId (JString (Task.id t))) = true)
         (snapshot (run_all cs empty_world)).
Proof.
  destruct (task_ok_run_all cs empty_world) as [_ H].
  - apply wf_empty.
  - constructor.
  - exact H.
Qed.

(** X9: the id format is injective in what it draws, so the ids returned
    by successive [createTask] calls are pairwise distinct whenever the
    pairs of timestamp and random suffix that the calls draw are pairwise
    distinct, the suffix containing no hyphen; and every call of the
    store keeps the ids of the live tasks pairwise distinct, a
    [createTask] provided the id it generates is not the id of a live
    task. *)
Theorem ids_stay_distinct_unless_draws_repeat :
  (∀ now random now' random',
     hyphen ∉ random → hyphen ∉ random' →
     generateId now random = generateId now' random' →
     now = now' ∧ random = random') ∧
  (∀ reqs w,
     Forall (λ r : jsval * create_env, hyphen ∉ id_random r.2) reqs →
     NoDup ((λ r : jsval * create_env, draw r.2) <$> reqs) →
     NoDup (returned_ids (createAll reqs w).1)) ∧
  (∀ c w,
     wf w → NoDup (ids w) →
     (∀ title e, c = CreateTask title e →
                 generateId (id_now e) (id_random e) ∉ ids w) →
     NoDup (ids (run c w).2)).
Proof.
  destruct ids_distinct_when_draws_distinct as (Hall & Hinj & Hrun).
  split; [exact Hinj|]. split; [exact Hall|exact Hrun].
Qed.

Lemma ids_stay_distinct_unless_draws_repeat_witness :
  NoDup (returned_ids
           (createAll
              [(JString (lit "Buy groceries"),
                CreateEnv 1700000000000 (lit "k3j2h1g0f")
                          1700000000000 1700000000000);
               (JString (lit "Walk the dog"),
                CreateEnv 1700000000000 (lit "0zx81mq4c")
                          1700000000000 1700000000000)]
              empty_world).1) ∧
  NoDup (ids (run (DeleteTask sample_id) sample_world).2).
Proof.
  destruct ids_stay_distinct_unless_draws_repeat as (_ & Hall & Hrun).
  split.
  - apply Hall.
    + repeat constructor; apply (bool_decide_unpack _); vm_compute; exact I.
    + apply (bool_decide_unpack _). vm_compute. exact I.
  - apply (Hrun _ sample_world wf_sample_world).
    + apply (bool_decide_unpack _). vm_compute. exact I.
    + intros title e. discriminate.
Defined.

(** ** validation.js and the store's own checks *)

Lemma isNonEmptyString_spec title :
  isNonEmptyString title = true ↔ ∃ s, title = JString s ∧ trim s ≠ [].
Proof.
  split.
  - destruct title as [| | | |s|]; try done. simpl. intros H%Nat.ltb_lt.
    exists s. split; [done|]. intros E. rewrite E in H. simpl in H. lia.
  - intros (s & -> & Hs). simpl. apply Nat.ltb_lt.
    destruct (trim s); [done|simpl; lia].
Qed.

Lemma isNonEmptyString_false title :
  isNonEmptyString title = false → ∀ s, title = JString s → trim s = [].
Proof.
  intros H s ->. destruct (decide (trim s = [])) as [|Hs]; [done|].
  assert (isNonEmptyString (JString s) = true) as E
    by (apply isNonEmptyString_spec; eauto).
  congruence.
Qed.

(** X10: [createTask] accepts exactly the titles that [isNonEmptyString]
    accepts: it returns a task when the predicate holds of the title, and
    otherwise throws the title message and leaves the store as it was. *)
Theorem createTask_accepts_what_isNonEmptyString_accepts title e w :
  if isNonEmptyString title
  then ∃ task, (createTask title e w).1 = Ok task
  else createTask title e w = (Throw title_error, w).
Proof.
  destruct (isNonEmptyString title) eqn:H.
  - apply isNonEmptyString_spec in H as (s & -> & Hs).
    rewrite createTask_ok by done. eauto.
  - apply createTask_throw. by apply isNonEmptyString_false.
Qed.

Lemma validateTaskTitle_valid title :
  valid (validateTaskTitle title) = true ↔
  ∃ s, title = JString s ∧ (1 ≤ length (trim s) ≤ 200)%nat.
Proof.
  unfold validateTaskTitle. split.
  - destruct (truthy title); simpl; [|done].
    destruct title as [| | | |s|]; try done.
    destruct (Nat.eqb_spec (length (trim s)) 0); [done|].
    destruct (Nat.ltb_spec 200 (length (trim s))); [done|].
    intros _. exists s. split; [done|lia].
  - intros (s & -> & Hlen).
    assert (truthy (JString s) = true) as ->.
    { simpl. destruct s; [simpl in Hlen; lia|done]. }
    simpl.
    destruct (Nat.eqb_spec (length (trim s)) 0); [lia|].
    destruct (Nat.ltb_spec 200 (length (trim s))); [lia|done].
Qed.

(** X11: [validateTaskTitle] accepts exactly the strings whose trimmed
    length is between 1 and 200, and every title it accepts is accepted
    by [createTask], whatever the state of the store. *)
Theorem validateTaskTitle_is_stricter_than_createTask title :
  (valid (validateTaskTitle title) = true ↔
   ∃ s, title = JString s ∧ (1 ≤ length (trim s) ≤ 200)%nat) ∧
  (valid (validateTaskTitle title) = true →
   ∀ e w, ∃ task, (createTask title e w).1 = Ok task).
Proof.
  split; [apply validateTaskTitle_valid|].
  intros (s & -> & Hlen)%validateTaskTitle_valid e w.
  rewrite createTask_ok; [eauto|].
  intros E. rewrite E in Hlen. simpl in Hlen. lia.
Qed.

Lemma validateTaskTitle_is_stricter_than_createTask_witness :
  ∃ task,
    (createTask (JString (lit "  Buy groceries  ")) sample_env empty_world).1
    = Ok task.
Proof.
  apply (proj2 (validateTaskTitle_is_stricter_than_createTask
                  (JString (lit "  Buy groceries  ")))).
  vm_compute. reflexivity.
Defined.

Lemma validateTaskStatus_valid status :
  valid (validateTaskStatus status) = includes validStatuses status.
Proof.
  unfold validateTaskStatus.
  destruct (truthy status) eqn:Ht; cbn [negb].
  - by destruct (includes validStatuses status).
  - cbn [valid]. destruct status as [| |[]|x|s|]; try done.
    cbn [truthy] in Ht. apply negb_false_iff, bool_decide_eq_true in Ht as ->.
    reflexivity.
Qed.

(** X12: [validateTaskStatus] and [updateTaskStatus] agree.  The
    validator accepts a status exactly when it is one of the two allowed
    strings.  A status it rejects makes [updateTaskStatus] throw for
    every id and leave the store as it was: it throws the status
    message, except for an object that cannot be converted to a string,
    for which the [TypeError] of the log line comes first; the status
    message is the validator's own unless the status is falsy.  A
    status the validator accepts never makes [updateTaskStatus] throw
    the status message. *)
Theorem validateTaskStatus_agrees_with_updateTaskStatus status :
  (valid (validateTaskStatus status) = true ↔
   status = JString (lit "pending") ∨ status = JString (lit "completed")) ∧
  (valid (validateTaskStatus status) = false →
   (∀ taskId now w,
      updateTaskStatus taskId status now w
      = (Throw (match status with
                | JObject false => cannot_convert_error
                | _ => status_error
                end), w)) ∧
   (truthy status = true →
    error (validateTaskStatus status) = Some status_error)) ∧
  (valid (validateTaskStatus status) = true →
   ∀ taskId now w,
     (updateTaskStatus taskId status now w).1 ≠ Throw status_error).
Proof.
  rewrite validateTaskStatus_valid. split; [|split].
  - split; [apply includes_validStatuses|].
    by intros [-> | ->].
  - intros Hi. split.
    + intros. rewrite updateTaskStatus_invalid by done.
      by destruct status as [| | | | |[]].
    + intros Ht. unfold validateTaskStatus. by rewrite Ht, Hi.
  - intros Hi taskId now w.
    destruct (getTaskById taskId w) as [l|] eqn:Hl.
    + by rewrite (updateTaskStatus_ok _ _ now _ _ Hi Hl).
    + rewrite updateTaskStatus_missing by done.
      intros E. vm_compute in E. discriminate E.
Qed.

Lemma validateTaskStatus_agrees_with_updateTaskStatus_witness :
  updateTaskStatus sample_id (JString (lit "done")) 1700000000500 sample_world
  = (Throw status_error, sample_world) ∧
  updateTaskStatus sample_id (JObject false) 1700000000500 sample_world
  = (Throw cannot_convert_error, sample_world) ∧
  error (validateTaskStatus (JString (lit "done"))) = Some status_error ∧
  (updateTaskStatus sample_id (JString (lit "completed")) 1700000000500
                    sample_world).1 ≠ Throw status_error.
Proof.
  destruct (validateTaskStatus_agrees_with_updateTaskStatus
              (JString (lit "done"))) as (_ & H & _).
  destruct H as [Hthrow Herr]; [vm_compute; reflexivity|].
  destruct (validateTaskStatus_agrees_with_updateTaskStatus
              (JObject false)) as (_ & [Hobject _] & _);
    [vm_compute; reflexivity|].
  destruct (validateTaskStatus_agrees_with_updateTaskStatus
              (JString (lit "completed"))) as (_ & _ & Hok).
  split; [apply Hthrow|]. split; [apply Hobject|].
  split; [apply Herr; vm_compute; reflexivity|].
  apply Hok. vm_compute. reflexivity.
Defined.

(** X13: an id that [validateTaskId] rejects is never the id of a task
    in the store: whatever calls the store has served since it was
    empty, [getTaskById] answers [null] for it, [updateTaskStatus] with
    an allowed status and [deleteTask] throw the not-found message, and
    the store is left as it was. *)
Theorem rejected_id_is_never_stored cs taskId :
  valid (validateTaskId (JString taskId)) = false →
  let w := run_all cs empty_world in
  getTaskById taskId w = None ∧
  (∀ now, updateTaskStatus taskId (JString (lit "completed")) now w
          = (Throw (not_found_error taskId), w)) ∧
  deleteTask taskId w = (Throw (not_found_error taskId), w).
Proof.
  intros Hrej w.
  assert (Hnone : getTaskById taskId w = None).
  { apply getTaskById_None. unfold ids. intros Hin.
    apply list_elem_of_fmap in Hin as (t & -> & Ht).
    destruct (task_ok_run_all cs empty_world wf_empty) as [_ Hall];
      [constructor|].
    rewrite Forall_forall in Hall. destruct (Hall t Ht) as (_ & _ & _ & Hv).
    congruence. }
  split; [done|]. split.
  - intros now. by apply updateTaskStatus_missing.
  - by apply deleteTask_missing.
Qed.

Lemma rejected_id_is_never_stored_witness :
  getTaskById (lit "42") sample_world = None.
Proof.
  apply (rejected_id_is_never_stored
           [CreateTask (JString (lit "Buy groceries")) sample_env] (lit "42")).
  vm_compute. reflexivity.
Defined.

(** X14: each of the three validators reports an error message exactly
    when it reports the value as invalid. *)
Theorem validators_give_a_message_exactly_when_invalid v :
  (valid (validateTaskTitle v) = false ↔ is_Some (error (validateTaskTitle v))) ∧
  (valid (validateTaskStatus v) = false
   ↔ is_Some (error (validateTaskStatus v))) ∧
  (valid (validateTaskId v) = false ↔ is_Some (error (validateTaskId v))).
Proof.
  split; [|split].
  - unfold validateTaskTitle. destruct (truthy v); cbn [negb valid error].
    + destruct v as [| | | |s|]; cbn [negb valid error];
        try (split; [eauto|done]).
      destruct (length (trim s) =? 0)%nat; cbn [negb valid error]; [split; [eauto|done]|].
      destruct (200 <? length (trim s))%nat; cbn [negb valid error].
      * split; [eauto|done].
      * split; [done|]. by intros [? ?].
    + split; [eauto|done].
  - unfold validateTaskStatus. destruct (truthy v); cbn [negb valid error].
    + destruct (includes validStatuses v); cbn [negb valid error].
      * split; [done|]. by intros [? ?].
      * split; [eauto|done].
    + split; [eauto|done].
  - unfold validateTaskId. destruct v as [| | | |s|];
      try (split; [eauto|done]).
    destruct (truthy (JString s)); cbn [negb valid error]; [|split; [eauto|done]].
    destruct (startsWith s (lit "task-")); cbn [negb valid error].
    + split; [done|]. by intros [? ?].
    + split; [eauto|done].
Qed.

Lemma validators_give_a_message_exactly_when_invalid_witness :
  is_Some (error (validateTaskTitle (JNumber 123%float))) ∧
  is_Some (error (validateTaskStatus (JString (lit "done")))) ∧
  is_Some (error (validateTaskId (JString (lit "42")))).
Proof.
  destruct (validators_give_a_message_exactly_when_invalid
              (JNumber 123%float)) as (Ht & _ & _).
  destruct (validators_give_a_message_exactly_when_invalid
              (JString (lit "done"))) as (_ & Hs & _).
  destruct (validators_give_a_message_exactly_when_invalid
              (JString (lit "42"))) as (_ & _ & Hi).
  split; [apply Ht; vm_compute; reflexivity|].
  split; [apply Hs; vm_compute; reflexivity|].
  apply Hi; vm_compute; reflexivity.
Defined.


(** ** [sanitizeInput] *)

Lemma sublist_same_length {A} (l k : list A) :
  l `sublist_of` k → (length k ≤ length l)%nat → l = k.
Proof.
  induction 1 as [|x l k Hs IH|x l k Hs IH]; simpl; intros Hlen.
  - done.
  - f_equal. apply IH. lia.
  - apply sublist_length in Hs. lia.
Qed.

Lemma filter_all {A} (P : A → Prop) `{∀ x, Decision (P x)} (l : list A) :
  filter P l = l ↔ Forall P l.
Proof.
  split.
  - intros E. apply Forall_forall. intros x Hx. rewrite <- E in Hx.
    by apply list_elem_of_filter in Hx as [? _].
  - induction 1 as [|x l Hx _ IH]; [done|].
    by rewrite filter_cons_True, IH.
Qed.

Lemma remove_javascript_sublist skip s :
  remove_javascript skip s `sublist_of` s.
Proof.
  revert skip. induction s as [|c r IH]; intros skip; [by destruct skip|].
  destruct skip as [|k]; cbn [remove_javascript].
  - destruct (matches_javascript (c :: r)).
    + apply sublist_cons, IH.
    + apply sublist_skip, IH.
  - apply sublist_cons, IH.
Qed.

Lemma remove_javascript_fixed s :
  remove_javascript 0 s = s ↔ ∀ i, matches_javascript (drop i s) = false.
Proof.
  induction s as [|c r IH].
  - split; [|done]. intros _ i. by rewrite drop_nil.
  - cbn [remove_javascript]. split.
    + destruct (matches_javascript (c :: r)) eqn:Hm.
      * intros E. pose proof (remove_javascript_sublist 10 r) as Hs.
        apply sublist_length in Hs. rewrite E in Hs. simpl in Hs. lia.
      * intros [= E] [|i]; [done|]. by apply IH.
    + intros H. pose proof (H 0%nat) as H0.
      change (matches_javascript (c :: r) = false) in H0.
      rewrite H0. f_equal. apply IH.
      intros i. apply (H (S i)).
Qed.

Lemma sanitizeInput_stages s :
  sanitizeInput (JString s) `sublist_of` remove_javascript 0
                                           (remove_angle_brackets (trim s)) ∧
  remove_javascript 0 (remove_angle_brackets (trim s))
    `sublist_of` remove_angle_brackets (trim s) ∧
  remove_angle_brackets (trim s) `sublist_of` trim s ∧
  trim s `sublist_of` s.
Proof.
  split; [apply sublist_take|]. split; [apply remove_javascript_sublist|].
  split; [apply sublist_filter|apply trim_sublist].
Qed.

(** X15: [sanitizeInput] only deletes.  For a string, the result is the
    input with some code units left out, the others in their order; it
    has at most 1000 code units and holds neither ["<"] nor [">"].  For
    anything that is not a string the result is the empty string. *)
Theorem sanitizeInput_only_deletes input :
  (match input with
   | JString s => sanitizeInput input `sublist_of` s
   | _ => sanitizeInput input = []
   end) ∧
  (length (sanitizeInput input) ≤ 1000)%nat ∧
  (60%N ∉ sanitizeInput input) ∧
  (62%N ∉ sanitizeInput input).
Proof.
  destruct input as [| | | |s|];
    try (split; [done|]; split; [simpl; lia|]; split; apply not_elem_of_nil).
  destruct (sanitizeInput_stages s) as (H1 & H2 & H3 & H4).
  split; [by rewrite H1, H2, H3|].
  split; [unfold sanitizeInput; rewrite length_take; lia|].
  assert (Hin : ∀ c, c ∈ sanitizeInput (JString s) → c ≠ 60%N ∧ c ≠ 62%N).
  { intros c Hc.
    apply (elem_of_sublist _ _ _ Hc) in H1.
    apply (elem_of_sublist _ _ _ H1) in H2.
    by apply list_elem_of_filter in H2 as [? _]. }
  split; intros Hc; apply Hin in Hc as [? ?]; done.
Qed.

Lemma sanitizeInput_fixed_iff s :
  sanitizeInput (JString s) = s ↔
  trim s = s ∧
  Forall (λ c, c ≠ 60%N ∧ c ≠ 62%N) s ∧
  (∀ i, matches_javascript (drop i s) = false) ∧
  (length s ≤ 1000)%nat.
Proof.
  split.
  - intros E. destruct (sanitizeInput_stages s) as (H1 & H2 & H3 & H4).
    rewrite E in H1.
    pose proof (sublist_length _ _ H1). pose proof (sublist_length _ _ H2).
    pose proof (sublist_length _ _ H3). pose proof (sublist_length _ _ H4).
    assert (Ht : trim s = s) by (apply sublist_same_length; [done|lia]).
    rewrite Ht in *.
    assert (Ha : remove_angle_brackets s = s)
      by (apply sublist_same_length; [done|lia]).
    rewrite Ha in *.
    assert (Hj : remove_javascript 0 s = s)
      by (apply sublist_same_length; [done|lia]).
    split; [done|]. split; [by apply (filter_all _ s)|].
    split; [by apply remove_javascript_fixed|].
    rewrite <- E at 1. unfold sanitizeInput. rewrite length_take. lia.
  - intros (Ht & Ha & Hj & Hlen). unfold sanitizeInput.
    rewrite Ht. unfold remove_angle_brackets.
    rewrite (proj2 (filter_all _ s) Ha).
    rewrite (proj2 (remove_javascript_fixed s) Hj).
    by apply take_ge.
Qed.

(** X16: the strings that [sanitizeInput] returns as they are, are
    exactly the strings of at most 1000 code units that trimming leaves
    as they are, that hold neither ["<"] nor [">"], and in which
    ["javascript:"] occurs nowhere, in whatever mix of upper and lower
    case. *)
Theorem sanitizeInput_fixed_points s :
  sanitizeInput (JString s) = s ↔
  trim s = s ∧
  Forall (λ c, c ≠ 60%N ∧ c ≠ 62%N) s ∧
  (∀ i, matches_javascript (drop i s) = false) ∧
  (length s ≤ 1000)%nat.
Proof. apply sanitizeInput_fixed_iff. Qed.

Lemma sanitizeInput_fixed_points_witness :
  sanitizeInput (JString (lit "Buy groceries")) = lit "Buy groceries" ∧
  trim (lit "Buy <b>milk</b>") = lit "Buy <b>milk</b>" ∧
  ¬ Forall (λ c, c ≠ 60%N ∧ c ≠ 62%N) (lit "Buy <b>milk</b>").
Proof.
  split; [|split].
  - apply (proj2 (sanitizeInput_fixed_points (lit "Buy groceries"))).
    split; [reflexivity|].
    split; [apply (bool_decide_unpack _); vm_compute; exact I|].
    split; [|vm_compute; lia].
    intros i.
    destruct (decide (i < 13)%nat) as [Hi|Hi].
    + do 13 (destruct i as [|i]; [reflexivity|]). simpl in Hi. lia.
    + rewrite drop_ge by (vm_compute; lia). reflexivity.
  - reflexivity.
  - intros H.
    assert (E : sanitizeInput (JString (lit "Buy <b>milk</b>"))
                = lit "Buy <b>milk</b>").
    { apply (proj2 (sanitizeInput_fixed_points _)).
      split; [reflexivity|]. split; [exact H|].
      split; [|vm_compute; lia].
      intros i. destruct (decide (i < 15)%nat) as [Hi|Hi].
      + do 15 (destruct i as [|i]; [reflexivity|]). simpl in Hi. lia.
      + rewrite drop_ge by (vm_compute; lia). reflexivity. }
    vm_compute in E. discriminate E.
Defined.

Lemma trimStart_app_fixed a c b :
  is_ws c = false → trimStart (a ++ c :: b) = trimStart a ++ c :: b.
Proof.
  intros Hc. induction a as [|x a IH]; simpl.
  - by rewrite Hc.
  - by destruct (is_ws x).
Qed.

Lemma trim_prefix p c t :
  is_ws (hd c (p ++ [c])) = false → is_ws c = false →
  trimEnd t = t →
  trim ((p ++ [c]) ++ t) = (p ++ [c]) ++ t.
Proof.
  intros Hh Hc Ht. unfold trim.
  assert (Hs : ∀ x, trimStart ((p ++ [c]) ++ x) = (p ++ [c]) ++ x).
  { intros x. destruct p as [|d p]; simpl in *.
    - by rewrite Hh.
    - by rewrite Hh. }
  rewrite Hs. unfold trimEnd in *.
  rewrite !rev_app_distr. simpl.
  rewrite trimStart_app_fixed by done.
  rewrite rev_app_distr. simpl. rewrite rev_involutive, Ht.
  by rewrite <- !app_assoc.
Qed.

(** X17: [sanitizeInput] removes the occurrences of ["javascript:"] in
    one pass from left to right, so removing one can bring a new one
    together: from ["javajavascript:script:"] followed by a string [t]
    that the function leaves as it is, it returns ["javascript:"]
    followed by [t], which it does not leave as it is. *)
Theorem sanitizeInput_can_return_javascript t :
  sanitizeInput (JString t) = t → (length t ≤ 989)%nat →
  let out := sanitizeInput (JString (lit "javajavascript:script:" ++ t)) in
  out = lit "javascript:" ++ t ∧ sanitizeInput (JString out) ≠ out.
Proof.
  intros Ht Hlen out.
  assert (Hout : out = lit "javascript:" ++ t).
  { apply (proj1 (sanitizeInput_fixed_iff t)) in Ht
      as (Htrim & Hangle & Hjs & _).
    assert (HtrimEnd : trimEnd t = t).
    { rewrite <- Htrim at 1. unfold trim. rewrite trimEnd_idemp. exact Htrim. }
    unfold out, sanitizeInput.
    change (lit "javajavascript:script:")
      with (lit "javajavascript:script" ++ [58%N]).
    rewrite trim_prefix by done.
    assert (Hsplit : ∀ a b, remove_angle_brackets (a ++ b)
                            = remove_angle_brackets a ++ remove_angle_brackets b)
      by (intros; apply filter_app).
    rewrite Hsplit.
    assert (remove_angle_brackets t = t) as -> by by apply filter_all.
    assert (Hrun : ∀ x,
              remove_javascript 0
                ((lit "javajavascript:script" ++ [58%N]) ++ x)
              = lit "javascript:" ++ remove_javascript 0 x).
    { intros x. vm_compute. reflexivity. }
    change (remove_angle_brackets (lit "javajavascript:script" ++ [58%N]))
      with (lit "javajavascript:script" ++ [58%N]).
    rewrite Hrun, (proj2 (remove_javascript_fixed t) Hjs).
    apply take_ge. rewrite length_app.
    change (length (lit "javascript:")) with 11%nat. lia. }
  split; [exact Hout|].
  rewrite Hout. intros E.
  apply (proj1 (sanitizeInput_fixed_iff _)) in E as (_ & _ & Hjs & _).
  specialize (Hjs 0%nat). vm_compute in Hjs. discriminate Hjs.
Qed.

Lemma sanitizeInput_can_return_javascript_witness :
  sanitizeInput (JString (lit "javajavascript:script:alert(1)"))
  = lit "javascript:alert(1)".
Proof.
  apply (sanitizeInput_can_return_javascript (lit "alert(1)")).
  - reflexivity.
  - vm_compute. lia.
Defined.

(** ** taskUtils.js: filtering and searching *)

Lemma strict_equals_string v s :
  strict_equals v (JString s) = true ↔ v = JString s.
Proof.
  destruct v as [| | | |s'|]; simpl; try (split; done).
  rewrite bool_decide_eq_true. split; congruence.
Qed.

(** X18: [filterByStatus] returns the array itself for a falsy status
    (undefined, null, the empty string); for a non-empty string it
    returns, in their order, exactly the tasks whose status is that
    string.  In both cases the result is the input with tasks left out,
    and filtering the result again by the same status changes nothing. *)
Theorem filterByStatus_selects_by_status ts status :
  (truthy status = false → filterByStatus ts status = ts) ∧
  (∀ s, status = JString s → s ≠ [] →
        ∀ t, t ∈ filterByStatus ts status
             ↔ t ∈ ts ∧ Task.status t = JString s) ∧
  filterByStatus ts status `sublist_of` ts ∧
  filterByStatus (filterByStatus ts status) status = filterByStatus ts status.
Proof.
  unfold filterByStatus. split; [by intros ->|]. split; [|split].
  - intros s -> Hs t.
    assert (truthy (JString s) = true) as ->
      by (simpl; by rewrite bool_decide_eq_false_2).
    cbn [negb]. rewrite list_elem_of_filter, Is_true_true, strict_equals_string.
    tauto.
  - destruct (negb (truthy status)); [done|apply sublist_filter].
  - destruct (negb (truthy status)); [done|].
    by apply list_filter_filter_l.
Qed.

Lemma filterByStatus_selects_by_status_witness :
  filterByStatus (snapshot clash_world) JUndefined = snapshot clash_world ∧
  (deref sample_world 0%nat ∈ filterByStatus (snapshot sample_world)
                                             (JString (lit "pending"))).
Proof.
  destruct (filterByStatus_selects_by_status (snapshot clash_world) JUndefined)
    as (Hfalsy & _).
  destruct (filterByStatus_selects_by_status
              (snapshot sample_world) (JString (lit "pending")))
    as (_ & Hin & _).
  split; [by apply Hfalsy|].
  apply (Hin (lit "pending") eq_refl); [done|].
  split; [|reflexivity]. vm_compute. apply list_elem_of_here.
Defined.

Lemma length_filter_disjoint {A} (P Q : A → Prop)
    `{∀ x, Decision (P x)} `{∀ x, Decision (Q x)} (l : list A) :
  (∀ x, P x → Q x → False) →
  (length (filter P l) + length (filter Q l) ≤ length l)%nat ∧
  ((length (filter P l) + length (filter Q l))%nat = length l
   ↔ Forall (λ x, P x ∨ Q x) l).
Proof.
  intros Hdis. induction l as [|x l [IHle IHeq]]; [by split|].
  rewrite !filter_cons, Forall_cons.
  pose proof (length_filter P l). pose proof (length_filter Q l).
  destruct (decide (P x)) as [HP|HP], (decide (Q x)) as [HQ|HQ]; simpl.
  - destruct (Hdis x HP HQ).
  - split; [lia|]. split; [intros E|intros [_ Hl]].
    + split; [by left|]. apply IHeq. lia.
    + apply IHeq in Hl. lia.
  - split; [lia|]. split; [intros E|intros [_ Hl]].
    + split; [by right|]. apply IHeq. lia.
    + apply IHeq in Hl. lia.
  - split; [lia|]. split; [lia|]. intros [[?|?] _]; done.
Qed.

Lemma strict_eq_true v s : strict_eq v s = true ↔ v = JString s.
Proof.
  destruct v as [| | | |s'|]; simpl; try (split; done).
  rewrite bool_decide_eq_true. split; congruence.
Qed.

(** X19: the counts of [getTaskStatistics] are the lengths of what
    [filterByStatus] selects for ["pending"] and for ["completed"]; they
    never add up to more than the total, and they add up to the total
    exactly when every task has one of the two statuses. *)
Theorem getTaskStatistics_counts_what_filterByStatus_selects ts :
  let g := getTaskStatistics ts in
  total g = length ts ∧
  pending g = length (filterByStatus ts (JString (lit "pending"))) ∧
  completed g = length (filterByStatus ts (JString (lit "completed"))) ∧
  (pending g + completed g ≤ total g)%nat ∧
  ((pending g + completed g)%nat = total g
   ↔ Forall (λ t, Task.status t = JString (lit "pending")
                  ∨ Task.status t = JString (lit "completed")) ts).
Proof.
  assert (Hfilter : ∀ s, s ≠ [] →
            filter (λ t, strict_eq (Task.status t) s) ts
            = filterByStatus ts (JString s)).
  { intros s Hs. unfold filterByStatus.
    assert (truthy (JString s) = true) as ->
      by (simpl; by rewrite bool_decide_eq_false_2).
    cbn [negb]. apply list_filter_iff. intros t.
    by rewrite !Is_true_true, strict_eq_true, strict_equals_string. }
  cbn zeta. unfold getTaskStatistics. cbn [total pending completed].
  split; [done|].
  split; [by rewrite Hfilter|]. split; [by rewrite Hfilter|].
  destruct (length_filter_disjoint
              (λ t, strict_eq (Task.status t) (lit "pending"))
              (λ t, strict_eq (Task.status t) (lit "completed")) ts)
    as [Hle Heq].
  { intros t H1%Is_true_true%strict_eq_true H2%Is_true_true%strict_eq_true.
    rewrite H1 in H2. vm_compute in H2. discriminate H2. }
  split; [exact Hle|].
  rewrite Heq. apply Forall_iff. intros t.
  by rewrite !Is_true_true, !strict_eq_true.
Qed.

Lemma getTaskStatistics_counts_what_filterByStatus_selects_witness :
  (pending (getTaskStatistics (snapshot store_23_of_40))
   + completed (getTaskStatistics (snapshot store_23_of_40)))%nat
  = total (getTaskStatistics (snapshot store_23_of_40)).
Proof.
  destruct (getTaskStatistics_counts_what_filterByStatus_selects
              (snapshot store_23_of_40)) as (_ & _ & _ & _ & H).
  apply H. apply (allowed_statuses_forallb _).
  vm_compute. reflexivity.
Defined.

Lemma string_includes_empty s : string_includes s [] = true.
Proof. by destruct s. Qed.

Lemma string_includes_infix a m b : string_includes (a ++ m ++ b) m = true.
Proof.
  induction a as [|c a IH].
  - simpl (_ ++ _). destruct (m ++ b) eqn:E; cbn [string_includes];
      rewrite <- ?E, take_app_length, bool_decide_eq_true_2; done.
  - simpl (_ ++ _). cbn [string_includes]. rewrite IH. apply orb_true_r.
Qed.

Lemma string_includes_trim s : string_includes s (trim s) = true.
Proof.
  destruct (trimStart_split s) as (ws & Hs & _).
  destruct (trimEnd_split (trimStart s)) as (ws' & Hs' & _).
  rewrite Hs at 1. rewrite Hs' at 1. apply string_includes_infix.
Qed.

(** X20: [searchTasks], whatever [toLowerCase] computes.  A falsy term
    returns the array itself, and so does, task for task, a non-empty
    term of which lower-casing and trimming leave nothing; a string term
    returns the array with tasks left out; every task with a non-empty
    title is found by searching for its own title; and a term that is
    truthy and not a string makes the function throw. *)
Theorem searchTasks_edge_cases toLowerCase ts searchTerm :
  (truthy searchTerm = false → searchTasks toLowerCase ts searchTerm = Ok ts) ∧
  (∀ s, searchTerm = JString s → trim (toLowerCase s) = [] →
        searchTasks toLowerCase ts searchTerm = Ok ts) ∧
  (∀ s, searchTerm = JString s →
        ∃ found, searchTasks toLowerCase ts searchTerm = Ok found ∧
                 found `sublist_of` ts) ∧
  (∀ t, t ∈ ts → searchTerm = JString (Task.title t) → Task.title t ≠ [] →
        ∃ found, searchTasks toLowerCase ts searchTerm = Ok found ∧
                 t ∈ found) ∧
  (truthy searchTerm = true → (∀ s, searchTerm ≠ JString s) →
   ∃ error_message, searchTasks toLowerCase ts searchTerm = Throw error_message).
Proof.
  unfold searchTasks. split; [by intros ->|]. split; [|split; [|split]].
  - intros s -> Hempty. destruct (negb (truthy (JString s))); [done|].
    f_equal. rewrite Hempty. apply filter_all, Forall_forall.
    intros t _. by rewrite string_includes_empty.
  - intros s ->. destruct (negb (truthy (JString s))).
    + eauto.
    + eexists. split; [done|]. apply sublist_filter.
  - intros t Ht -> Hne.
    assert (truthy (JString (Task.title t)) = true) as ->
      by (simpl; by rewrite bool_decide_eq_false_2).
    cbn [negb]. eexists. split; [done|].
    apply list_elem_of_filter. split; [|done].
    apply Is_true_true, string_includes_trim.
  - intros -> Hns. cbn [negb].
    destruct searchTerm as [| | | |s|]; eauto. by destruct (Hns s).
Qed.

Lemma searchTasks_edge_cases_witness :
  searchTasks (fmap fold_case) (snapshot sample_world) (JString (lit "   "))
  = Ok (snapshot sample_world) ∧
  (∃ found,
     searchTasks (fmap fold_case) (snapshot sample_world)
                 (JString (lit "Buy groceries")) = Ok found ∧
     deref sample_world 0%nat ∈ found) ∧
  (∃ error_message,
     searchTasks (fmap fold_case) (snapshot sample_world) (JNumber 123%float)
     = Throw error_message).
Proof.
  destruct (searchTasks_edge_cases (fmap fold_case) (snapshot sample_world)
              (JString (lit "   "))) as (_ & Hblank & _).
  destruct (searchTasks_edge_cases (fmap fold_case) (snapshot sample_world)
              (JString (lit "Buy groceries"))) as (_ & _ & _ & Hown & _).
  destruct (searchTasks_edge_cases (fmap fold_case) (snapshot sample_world)
              (JNumber 123%float)) as (_ & _ & _ & _ & Hthrow).
  split; [by apply (Hblank (lit "   "))|]. split.
  - apply (Hown (deref sample_world 0%nat)).
    + vm_compute. apply list_elem_of_here.
    + reflexivity.
    + vm_compute. discriminate.
  - apply Hthrow; [reflexivity|]. intros s. discriminate.
Defined.

(** ** taskUtils.js: sorting *)

Section sorting.

(** A comparator that orders by a key. *)
Context {A : Type} (key : A → Z) (cmp : A → A → Z).
Hypothesis cmp_key : ∀ a b, cmp a b ≤ 0 ↔ key a ≤ key b.

Lemma sort_insert_Permutation x xs : sort_insert cmp x xs ≡ₚ x :: xs.
Proof.
  induction xs as [|y r IH]; [done|]. simpl.
  destruct (cmp x y <=? 0); [done|]. rewrite IH. apply Permutation_swap.
Qed.

Lemma array_sort_Permutation xs : array_sort cmp xs ≡ₚ xs.
Proof.
  induction xs as [|x xs IH]; [done|]. unfold array_sort in *. simpl.
  by rewrite sort_insert_Permutation, IH.
Qed.

Lemma sort_insert_sorted x xs :
  StronglySorted (λ a b, key a ≤ key b) xs →
  StronglySorted (λ a b, key a ≤ key b) (sort_insert cmp x xs).
Proof using cmp_key.
  induction 1 as [|y r Hr IH Hy]; simpl.
  - repeat constructor.
  - pose proof (cmp_key x y). destruct (Z.leb_spec (cmp x y) 0).
    + constructor; [by constructor|]. constructor; [tauto|].
      eapply Forall_impl; [exact Hy|]. simpl. intros. lia.
    + constructor; [done|]. rewrite sort_insert_Permutation.
      constructor; [lia|done].
Qed.

Lemma array_sort_sorted xs :
  StronglySorted (λ a b, key a ≤ key b) (array_sort cmp xs).
Proof using cmp_key.
  induction xs as [|x xs IH]; [constructor|]. by apply sort_insert_sorted.
Qed.

Lemma sort_insert_stable z x xs :
  filter (λ a, key a = z) (sort_insert cmp x xs)
  = filter (λ a, key a = z) (x :: xs).
Proof using cmp_key.
  induction xs as [|y r IH]; [done|]. simpl.
  pose proof (cmp_key x y). destruct (Z.leb_spec (cmp x y) 0); [done|].
  rewrite (filter_cons _ y), IH, !filter_cons.
  destruct (decide (key y = z)), (decide (key x = z)); try done. lia.
Qed.

Lemma array_sort_stable z xs :
  filter (λ a, key a = z) (array_sort cmp xs) = filter (λ a, key a = z) xs.
Proof using cmp_key.
  induction xs as [|x xs IH]; [done|]. unfold array_sort in *. simpl.
  by rewrite sort_insert_stable, !filter_cons, IH.
Qed.

Lemma sorted_lookup (xs : list A) i j a b :
  StronglySorted (λ a b, key a ≤ key b) xs →
  (i ≤ j)%nat → xs !! i = Some a → xs !! j = Some b → key a ≤ key b.
Proof.
  intros Hs. revert i j. induction Hs as [|y r Hr IH Hy]; intros i j Hij Ha Hb.
  - done.
  - destruct i as [|i], j as [|j]; simpl in *.
    + assert (a = b) by congruence. subst. lia.
    + injection Ha as ->. rewrite Forall_forall in Hy.
      apply Hy. by eapply list_elem_of_lookup_2.
    + lia.
    + apply (IH i j); [lia|done..].
Qed.

End sorting.

(** X21: [sortByDate] is a stable sort on the creation time.  Its result
    holds the tasks of the input, each as often as the input does; it is
    in ascending order of [createdAt] when [order] is ["asc"] and in
    descending order for every other value of [order]; and tasks created
    at the same instant keep the order they have in the input. *)
Theorem sortByDate_is_a_stable_sort ts order :
  let sorted := sortByDate ts order in
  sorted ≡ₚ ts ∧
  (∀ i j a b,
     (i ≤ j)%nat → sorted !! i = Some a → sorted !! j = Some b →
     if strict_eq order (lit "asc")
     then Task.createdAt a ≤ Task.createdAt b
     else Task.createdAt b ≤ Task.createdAt a) ∧
  (∀ instant,
     filter (λ t, Task.createdAt t = instant) sorted
     = filter (λ t, Task.createdAt t = instant) ts).
Proof.
  cbn zeta. unfold sortByDate.
  split; [apply array_sort_Permutation|].
  destruct (strict_eq order (lit "asc")).
  - assert (Hcmp : ∀ a b, Task.createdAt a - Task.createdAt b ≤ 0
                          ↔ Task.createdAt a ≤ Task.createdAt b)
      by (intros; lia).
    split.
    + intros i j a b.
      apply (sorted_lookup Task.createdAt), (array_sort_sorted _ _ Hcmp).
    + intros z. apply (array_sort_stable _ _ Hcmp).
  - assert (Hcmp : ∀ a b, Task.createdAt b - Task.createdAt a ≤ 0
                          ↔ - Task.createdAt a ≤ - Task.createdAt b)
      by (intros; lia).
    split.
    + intros i j a b Hij Ha Hb.
      pose proof (sorted_lookup (λ t, - Task.createdAt t) _ i j a b
                    (array_sort_sorted _ _ Hcmp ts) Hij Ha Hb).
      simpl in *. lia.
    + intros z.
      pose proof (array_sort_stable _ _ Hcmp (- z) ts) as H.
      etrans; [|etrans; [exact H|]]; apply list_filter_iff; intros t; lia.
Qed.

Lemma sortByDate_is_a_stable_sort_witness :
  ∃ a b,
    sortByDate (snapshot (filled_world 3)) JUndefined !! 0%nat = Some a ∧
    sortByDate (snapshot (filled_world 3)) JUndefined !! 2%nat = Some b ∧
    Task.createdAt b ≤ Task.createdAt a.
Proof.
  destruct (sortByDate_is_a_stable_sort (snapshot (filled_world 3)) JUndefined)
    as (_ & Hsorted & _).
  eexists _, _. split; [reflexivity|]. split; [reflexivity|].
  apply (Hsorted 0%nat 2%nat); [lia|reflexivity|reflexivity].
Defined.

(** ** taskUtils.js: the pages of an array *)

Lemma paginateTasks_page_at {A} (ts : list A) (s : Z) (k : nat) :
  0 < s →
  Z.of_nat k < ceil_div (Z.of_nat (length ts)) s →
  page_tasks (paginateTasks ts (Z.of_nat k + 1) s)
  = take (Z.to_nat s) (drop (k * Z.to_nat s) ts).
Proof.
  intros Hs Hk. unfold paginateTasks. cbn [page_tasks].
  set (T := ceil_div (Z.of_nat (length ts)) s) in *.
  destruct (Z.eqb_spec T 0) as [E|_]; [lia|].
  replace (Z.max 1 (Z.min (Z.of_nat k + 1) T)) with (Z.of_nat k + 1) by lia.
  unfold slice. f_equal; [f_equal; lia|]. f_equal. nia.
Qed.

Lemma paginateTasks_first_pages {A} (ts : list A) (s : Z) (m : nat) :
  0 < s →
  Z.of_nat m ≤ ceil_div (Z.of_nat (length ts)) s →
  concat ((λ k, page_tasks (paginateTasks ts (Z.of_nat k + 1) s)) <$> seq 0 m)
  = take (m * Z.to_nat s) ts.
Proof.
  intros Hs. induction m as [|m IH]; intros Hm; [done|].
  rewrite seq_S, fmap_app, concat_app, IH by lia.
  change (concat (?f <$> [?x])) with (f x ++ []).
  rewrite app_nil_r. cbn beta. change (0 + m)%nat with m.
  rewrite paginateTasks_page_at by lia.
  by rewrite take_take_drop, Nat.add_comm.
Qed.

(** X22: for a page size [s > 0], the pages 1 to [totalPages] of an
    array, one after the other, are the array. *)
Theorem paginateTasks_pages_cover_the_array {A} (ts : list A) (s : Z) :
  0 < s →
  concat ((λ k, page_tasks (paginateTasks ts (Z.of_nat k + 1) s))
            <$> seq 0 (Z.to_nat (totalPages (paginateTasks ts 1 s))))
  = ts.
Proof.
  intros Hs. cbn [paginateTasks totalPages].
  destruct (ceil_div_bounds (Z.of_nat (length ts)) s) as (H0 & _ & Hn);
    [lia..|].
  rewrite paginateTasks_first_pages by lia.
  apply take_ge. nia.
Qed.

Lemma paginateTasks_pages_cover_the_array_witness :
  concat [page_tasks (paginateTasks (snapshot (filled_world 5)) 1 2);
          page_tasks (paginateTasks (snapshot (filled_world 5)) 2 2);
          page_tasks (paginateTasks (snapshot (filled_world 5)) 3 2)]
  = snapshot (filled_world 5).
Proof.
  apply (paginateTasks_pages_cover_the_array (snapshot (filled_world 5)) 2).
  lia.
Defined.

(** ** health.js: the parts of an uptime *)

(** X23: for a whole number of seconds from 0 to 2^53 - 1,
    [formatUptime] splits it into days, hours below 24, minutes below 60
    and seconds below 60 that add up to it; below one minute the result
    is the number of seconds followed by ["s"]. *)
Theorem formatUptime_parts_add_up seconds :
  0 ≤ seconds < 2 ^ 53 →
  ∃ p,
    uptime_split seconds = Some p ∧
    days p * 86400 + hours p * 3600 + minutes p * 60 + secs p = seconds ∧
    0 ≤ days p ∧ 0 ≤ hours p < 24 ∧ 0 ≤ minutes p < 60 ∧ 0 ≤ secs p < 60 ∧
    (seconds < 60 →
     formatUptime seconds = Some (number_to_string seconds ++ lit "s")).
Proof.
  intros Hs.
  assert (Hdom : (Z.abs seconds <? 2 ^ 53) = true) by (apply Z.ltb_lt; lia).
  unfold formatUptime, uptime_split. rewrite Hdom.
  eexists. split; [reflexivity|]. cbn [days hours minutes secs].
  rewrite !Z.rem_mod_nonneg by lia.
  pose proof (Z.div_mod seconds 86400 ltac:(lia)) as Hd.
  pose proof (Z.mod_pos_bound seconds 86400 ltac:(lia)) as Hdb.
  pose proof (Z.div_mod (seconds `mod` 86400) 3600 ltac:(lia)) as Hh.
  pose proof (Z.mod_pos_bound (seconds `mod` 86400) 3600 ltac:(lia)) as Hhb.
  pose proof (Z.div_mod (seconds `mod` 3600) 60 ltac:(lia)) as Hm.
  pose proof (Z.mod_pos_bound (seconds `mod` 3600) 60 ltac:(lia)) as Hmb.
  assert (H1 : (seconds `mod` 86400) `mod` 3600 = seconds `mod` 3600).
  { symmetry. rewrite (Z.div_mod seconds 86400) at 1 by lia.
    replace (86400 * (seconds `div` 86400) + seconds `mod` 86400)
      with (seconds `mod` 86400 + (24 * (seconds `div` 86400)) * 3600) by lia.
    apply Z.mod_add. lia. }
  assert (H2 : (seconds `mod` 3600) `mod` 60 = seconds `mod` 60).
  { symmetry. rewrite (Z.div_mod seconds 3600) at 1 by lia.
    replace (3600 * (seconds `div` 3600) + seconds `mod` 3600)
      with (seconds `mod` 3600 + (60 * (seconds `div` 3600)) * 60) by lia.
    apply Z.mod_add. lia. }
  pose proof (Z.div_pos seconds 86400 ltac:(lia) ltac:(lia)).
  pose proof (Z.div_pos (seconds `mod` 86400) 3600 ltac:(lia) ltac:(lia)).
  pose proof (Z.div_pos (seconds `mod` 3600) 60 ltac:(lia) ltac:(lia)).
  pose proof (Z.mod_pos_bound seconds 60 ltac:(lia)).
  split; [lia|]. split; [lia|]. split; [lia|]. split; [lia|].
  split; [lia|].
  intros Hlt.
  rewrite (Z.div_small seconds 86400), (Z.mod_small seconds 86400) by lia.
  rewrite (Z.div_small seconds 3600), (Z.mod_small seconds 3600) by lia.
  rewrite (Z.div_small seconds 60), (Z.mod_small seconds 60) by lia.
  simpl. by rewrite ?app_nil_r.
Qed.

Lemma formatUptime_parts_add_up_witness :
  (∃ p, uptime_split 90061 = Some p ∧
        days p * 86400 + hours p * 3600 + minutes p * 60 + secs p = 90061) ∧
  formatUptime 45 = Some (number_to_string 45 ++ lit "s").
Proof.
  split.
  - destruct (formatUptime_parts_add_up 90061) as (p & Hp & Hsum & _); [lia|].
    exists p. split; [exact Hp|exact Hsum].
  - destruct (formatUptime_parts_add_up 45) as (p & _ & _ & _ & _ & _ & _ & H);
      [lia|].
    apply H. lia.
Defined.

(** ** app.js: what the task routes answer *)

(** X24: [POST /api/tasks] answers 201 with the new task, pending and
    with the trimmed title, exactly when the title of the body is a
    string that is not blank, and the store then holds one task more;
    for every other body it answers 400 with the title message and
    leaves the store as it was. *)
Theorem post_api_tasks_answers_201_or_400 title e w :
  let r := (post_api_tasks title e w).1 in
  let w' := (post_api_tasks title e w).2 in
  if isNonEmptyString title
  then ∃ s, title = JString s ∧
            statusCode r = 201 ∧ success r = true ∧
            data r = TaskData (Task.mk (generateId (id_now e) (id_random e))
                                       (trim s) (JString (lit "pending"))
                                       (created_now e) (updated_now e)) ∧
            getTaskCount w' = S (getTaskCount w)
  else statusCode r = 400 ∧ success r = false ∧ message r = title_error ∧
       data r = NoData ∧ w' = w.
Proof.
  cbn zeta. unfold post_api_tasks.
  destruct (isNonEmptyString title) eqn:H.
  - apply isNonEmptyString_spec in H as (s & -> & Hs). exists s.
    rewrite createTask_ok by done. cbn [fst snd statusCode success data].
    rewrite deref_new. unfold getTaskCount. cbn [tasks].
    rewrite length_app. simpl. repeat split; lia.
  - rewrite createTask_throw by by apply isNonEmptyString_false. done.
Qed.

(** X25: [GET /api/tasks/:id] answers 404 exactly when no task of the
    store has the id, and otherwise 200 with a task that has the id; in
    both cases the store is left as it was. *)
Theorem get_api_task_answers_404_exactly_when_absent id w :
  let r := (get_api_task id w).1 in
  (statusCode r = 404 ↔ id ∉ ids w) ∧
  (statusCode r = 200 ↔ id ∈ ids w) ∧
  (id ∈ ids w → ∃ t, data r = TaskData t ∧ Task.id t = id ∧ t ∈ snapshot w) ∧
  (id ∉ ids w → success r = false ∧ message r = not_found_error id) ∧
  (get_api_task id w).2 = w.
Proof.
  cbn zeta. unfold get_api_task.
  pose proof (getTaskById_None id w) as Hnone.
  destruct (getTaskById id w) as [l|] eqn:Hl; cbn [fst snd statusCode data].
  - assert (Hin : id ∈ ids w).
    { destruct (decide (id ∈ ids w)) as [|Hn]; [done|].
      apply Hnone in Hn. done. }
    destruct (getTaskById_Some _ _ _ Hl) as [Hid [i Hi]].
    split; [split; [done|tauto]|]. split; [done|].
    split; [|split; [tauto|done]].
    intros _. exists (deref w l). split; [done|]. split; [done|].
    apply (list_elem_of_lookup_2 _ i). unfold snapshot.
    by rewrite list_lookup_fmap, Hi.
  - assert (Hout : id ∉ ids w) by by apply Hnone.
    split; [done|]. split; [split; [done|tauto]|].
    split; [tauto|]. done.
Qed.

Lemma get_api_task_answers_404_exactly_when_absent_witness :
  statusCode (get_api_task (lit "task-0-none") sample_world).1 = 404 ∧
  statusCode (get_api_task sample_id sample_world).1 = 200.
Proof.
  split.
  - apply (proj1 (get_api_task_answers_404_exactly_when_absent _ _)).
    apply (bool_decide_unpack _). vm_compute. exact I.
  - apply (proj1 (proj2 (get_api_task_answers_404_exactly_when_absent _ _))).
    apply (bool_decide_unpack _). vm_compute. exact I.
Defined.

(** X26: for an id that no task of the store has, [PUT] and [DELETE]
    answer 400 and not 404: [DELETE] with the not-found message, [PUT]
    with the not-found message when the status is allowed; when it is
    not, with the status message, or, for an object that cannot be
    converted to a string, with the message of the [TypeError] that the
    log line raises.  Neither changes the store. *)
Theorem put_and_delete_answer_400_for_a_missing_task id status now w :
  id ∉ ids w →
  let p := put_api_task id status now w in
  let d := delete_api_task id w in
  statusCode p.1 = 400 ∧ success p.1 = false ∧
  message p.1 = (if includes validStatuses status then not_found_error id
                 else match status with
                      | JObject false => cannot_convert_error
                      | _ => status_error
                      end) ∧
  p.2 = w ∧
  statusCode d.1 = 400 ∧ success d.1 = false ∧
  message d.1 = not_found_error id ∧ d.2 = w.
Proof.
  intros Hout%getTaskById_None. cbn zeta.
  unfold put_api_task, delete_api_task.
  rewrite deleteTask_missing by done.
  destruct (includes validStatuses status) eqn:Hi.
  - by rewrite updateTaskStatus_missing.
  - rewrite updateTaskStatus_invalid by done.
    by destruct status as [| | | | |[]].
Qed.

Lemma put_and_delete_answer_400_for_a_missing_task_witness :
  statusCode (put_api_task (lit "task-0-none") (JString (lit "completed"))
                           1700000000500 sample_world).1 = 400 ∧
  statusCode (delete_api_task (lit "task-0-none") sample_world).1 = 400 ∧
  message (put_api_task (lit "task-0-none") (JObject false)
                        1700000000500 sample_world).1 = cannot_convert_error.
Proof.
  destruct (put_and_delete_answer_400_for_a_missing_task
              (lit "task-0-none") (JString (lit "completed"))
              1700000000500 sample_world) as (Hp & _ & _ & _ & Hd & _).
  - apply (bool_decide_unpack _). vm_compute. exact I.
  - destruct (put_and_delete_answer_400_for_a_missing_task
                (lit "task-0-none") (JObject false)
                1700000000500 sample_world) as (_ & _ & Hm & _).
    + apply (bool_decide_unpack _). vm_compute. exact I.
    + split; [exact Hp|]. split; [exact Hd|exact Hm].
Defined.






Lemma get_api_tasks_answer w :
  (get_api_tasks w).1
  = HttpResponse 200 true (lit "Tasks retrieved successfully")
                 (TasksData (snapshot w) (getTaskCount w)).
Proof.
  unfold get_api_tasks.
  pose proof (getTasks_contents w) as Hc.
  destruct (getTasks w) as [ts w'] eqn:E. cbn [fst snd] in *.
  rewrite Hc. do 2 f_equal.
  assert (ts = (getTasks w).1) as -> by by rewrite E.
  unfold getTasks. cbn [fst]. by rewrite length_seq, length_snapshot.
Qed.

(** X28: [GET /api/tasks] answers 200 with the tasks of the store in
    their order and a [count] that is their number, which is also the
    [totalTasks] that [GET /api/stats] reports before and after it; the
    request leaves the tasks of the store as they were. *)
Theorem get_api_tasks_lists_the_store w :
  wf w →
  let a := (get_api_tasks w).1 in
  let w' := (get_api_tasks w).2 in
  statusCode a = 200 ∧ success a = true ∧
  data a = TasksData (snapshot w) (length (snapshot w)) ∧
  data (get_api_stats w).1 = StatsData (apiStats w) ∧
  totalTasks (apiStats w) = length (snapshot w) ∧
  snapshot w' = snapshot w ∧
  apiStats w' = apiStats w.
Proof.
  intros Hwf. cbn zeta. rewrite get_api_tasks_answer.
  cbn [statusCode success data]. rewrite length_snapshot.
  split; [done|]. split; [done|]. split; [done|]. split; [done|].
  split; [done|].
  assert (Hw : (get_api_tasks w).2 = (getTasks w).2).
  { unfold get_api_tasks. by destruct (getTasks w). }
  rewrite Hw. pose proof (snapshot_getTasks w Hwf) as Hs.
  split; [done|].
  unfold apiStats.
  rewrite !getCompletedTaskCount_snapshot, <- !length_snapshot.
  by rewrite Hs.
Qed.

Lemma get_api_tasks_lists_the_store_witness :
  data (get_api_tasks sample_world).1
  = TasksData (snapshot sample_world) (length (snapshot sample_world)).
Proof.
  apply (get_api_tasks_lists_the_store sample_world wf_sample_world).
Defined.

(** X29: the life of one task over the routes.  On a store in which no
    task has the id that the request draws, [POST] with a title that is
    not blank answers 201 with the pending task; [PUT] of ["completed"]
    on its id answers 200 with the task completed, its [updatedAt] set
    to the time of the request and its id, title and [createdAt] as
    they were; [GET] on the id answers 200 with the same task;
    [DELETE] answers 200 with it; after that [GET] on the id answers
    404, and the store holds the tasks it held at the start. *)
Theorem task_lifecycle_over_the_routes s e now w :
  wf w → trim s ≠ [] → generateId (id_now e) (id_random e) ∉ ids w →
  let id := generateId (id_now e) (id_random e) in
  let pending_task := Task.mk id (trim s) (JString (lit "pending"))
                              (created_now e) (updated_now e) in
  let completed_task := Task.mk id (trim s) (JString (lit "completed"))
                                (created_now e) now in
  let posted := post_api_tasks (JString s) e w in
  let put := put_api_task id (JString (lit "completed")) now posted.2 in
  let got := get_api_task id put.2 in
  let deleted := delete_api_task id got.2 in
  let gone := get_api_task id deleted.2 in
  (statusCode posted.1 = 201 ∧ data posted.1 = TaskData pending_task) ∧
  (statusCode put.1 = 200 ∧ data put.1 = TaskData completed_task) ∧
  (statusCode got.1 = 200 ∧ data got.1 = TaskData completed_task) ∧
  (statusCode deleted.1 = 200 ∧ data deleted.1 = TaskData completed_task) ∧
  statusCode gone.1 = 404 ∧
  snapshot gone.2 = snapshot w.
Proof.
  intros Hwf Hs Hfresh id pending_task completed_task.
  set (l0 := length (heap w)).
  set (w1 := World (heap w ++ [pending_task]) (tasks w ++ [l0])).
  set (w2 := World (heap w ++ [completed_task]) (tasks w ++ [l0])).
  set (w3 := World (heap w ++ [completed_task]) (tasks w)).
  assert (Hnone : getTaskById id w = None) by by apply getTaskById_None.
  assert (Hpost : post_api_tasks (JString s) e w
                  = (HttpResponse 201 true (lit "Task created successfully")
                                  (TaskData pending_task), w1)).
  { unfold post_api_tasks. rewrite createTask_ok by done.
    fold id pending_task l0 w1. unfold w1 at 1. by rewrite deref_new. }
  assert (Hfind1 : getTaskById id w1 = Some l0).
  { pose proof (getTaskById_after_create s e w id Hwf Hs) as H.
    rewrite createTask_ok in H by done. cbn [snd] in H.
    fold id pending_task l0 w1 in H. rewrite H, Hnone.
    by rewrite decide_True. }
  assert (Hput : put_api_task id (JString (lit "completed")) now w1
                 = (HttpResponse 200 true (lit "Task updated successfully")
                                 (TaskData completed_task), w2)).
  { unfold put_api_task.
    rewrite (updateTaskStatus_ok id (JString (lit "completed")) now w1 l0
               eq_refl Hfind1).
    assert (Hd : deref w1 l0 = pending_task) by apply deref_new.
    rewrite Hd.
    change (Task.mk (Task.id pending_task) (Task.title pending_task)
                    (JString (lit "completed")) (Task.createdAt pending_task)
                    now) with completed_task.
    change (heap w1) with (heap w ++ [pending_task]).
    change (tasks w1) with (tasks w ++ [l0]).
    assert (Hins : <[(l0 : loc) := completed_task]> (heap w ++ [pending_task])
                   = heap w ++ [completed_task]).
    { unfold l0. rewrite <- (Nat.add_0_r (length (heap w))).
      by rewrite insert_app_r. }
    rewrite Hins. fold w2.
    unfold w2 at 1. by rewrite deref_new. }
  assert (Hfind2 : getTaskById id w2 = Some l0).
  { unfold getTaskById, w2. cbn [tasks].
    rewrite <- Hfind1. unfold getTaskById, w1. cbn [tasks].
    apply find_agree. intros l Hl. unfold has_id. f_equal.
    apply elem_of_app in Hl as [Hl|Hl%list_elem_of_singleton].
    - destruct Hwf as [Hb _]. rewrite Forall_forall in Hb.
      specialize (Hb l Hl). unfold deref. cbn [heap].
      by rewrite !lookup_total_app_l.
    - subst l. unfold l0. by rewrite !deref_new. }
  assert (Hget : get_api_task id w2
                 = (HttpResponse 200 true (lit "Task retrieved successfully")
                                 (TaskData completed_task), w2)).
  { unfold get_api_task. rewrite Hfind2. unfold w2 at 1.
    by rewrite deref_new. }
  assert (Hdel : delete_api_task id w2
                 = (HttpResponse 200 true (lit "Task deleted successfully")
                                 (TaskData completed_task), w3)).
  { unfold delete_api_task.
    destruct (deleteTask_ok _ _ _ Hfind2) as (i & _ & Hi & ->).
    assert (i = length (tasks w)) as ->.
    { assert (Hnd : NoDup (tasks w2)).
      { unfold w2. cbn [tasks]. apply NoDup_app. destruct Hwf as [Hb Hn].
        split; [done|]. split; [|apply NoDup_singleton].
        intros l Hl ->%list_elem_of_singleton.
        rewrite Forall_forall in Hb. specialize (Hb _ Hl). unfold l0 in Hb.
        lia. }
      apply (NoDup_lookup _ _ _ l0 Hnd Hi).
      unfold w2. cbn [tasks]. by rewrite lookup_app_r, Nat.sub_diag. }
    unfold w2. cbn [heap tasks].
    assert (delete (length (tasks w)) (tasks w ++ [l0]) = tasks w) as ->
      by (rewrite delete_middle; apply app_nil_r).
    fold w3. unfold w3 at 1. by rewrite deref_new. }
  assert (Hsnap : snapshot w3 = snapshot w) by by apply snapshot_grow.
  assert (Hgone : get_api_task id w3
                  = (HttpResponse 404 false
                       (lit "Task with ID " ++ id ++ lit " not found")
                       NoData, w3)).
  { unfold get_api_task.
    assert (getTaskById id w3 = None) as ->; [|done].
    apply getTaskById_None. unfold ids. by rewrite Hsnap. }
  cbn zeta. rewrite Hpost. cbn [fst snd]. rewrite Hput. cbn [fst snd].
  rewrite Hget. cbn [fst snd]. rewrite Hdel. cbn [fst snd].
  rewrite Hgone. cbn [fst snd statusCode data]. done.
Qed.

Lemma task_lifecycle_over_the_routes_witness :
  statusCode
    (get_api_task sample_id
       (delete_api_task sample_id
          (get_api_task sample_id
             (put_api_task sample_id (JString (lit "completed")) 1700000000500
                (post_api_tasks (JString (lit "Buy groceries")) sample_env
                                empty_world).2).2).2).2).1 = 404.
Proof.
  apply (task_lifecycle_over_the_routes
           (lit "Buy groceries") sample_env 1700000000500 empty_world).
  - apply wf_empty.
  - vm_compute. discriminate.
  - apply not_elem_of_nil.
Defined.
